(** * ClaudeClient: streaming response assembly and the tool-use loop

    A shallow embedding of the [ClaudeClient] class: tool registration
    ([addTool], [addZodTool]), the request built by [createStream], and the
    generator [stream] with its three phases per turn: the [for await] loop
    over the provider's events, the [for] loop that runs tool handlers, and
    the decision to break or to ask for another turn.

    What lies outside the class is a parameter: the values and the parser
    of the JavaScript platform ([JSON.parse]), the provider behind
    [client.messages.create], and the effects of tool handlers, which are
    threaded through an abstract [World]. *)

From Stdlib Require Import Ascii String.
From stdpp Require Import gmap strings list.

Open Scope string_scope.
Open Scope list_scope.

(** ** The platform and the provider *)

(** A JavaScript exception: an instance of [Error] with its message, or any
    other thrown value (for which [error instanceof Error] is false). *)
Inductive thrown :=
  | JsError (message : string)
  | NonError (value : string).

(** [Json] are the values of type [unknown] that [JSON.parse] returns;
    [empty_object] is the literal [{}]; [JSON_parse s] is [inl m] when
    [JSON.parse(s)] throws a [SyntaxError] with message [m]. *)
Class Platform := {
  Json : Type;
  empty_object : Json;
  JSON_parse : string → string + Json;
}.

(** The line feed yielded at the end of a text block. *)
Definition newline : string := String "010"%char "".

(** The concatenation of [chunks], in order. *)
Definition join (chunks : list string) : string := foldr String.append "" chunks.

Section Model.
Context `{Platform}.

(** ** Content blocks, messages and events *)

(** [TextBlockParam | ToolUseBlockParam]: what a [content_block_start] event
    declares and what [responseBlocks] holds. *)
Inductive response_block :=
  | TextBlock (text : string)
  | ToolUseBlock (id name : string) (input : Json).

(** [ToolResultBlockParam]; [is_error] is [false] where the source leaves
    the field out. *)
Record ToolResultBlockParam := {
  tool_use_id : string;
  content : string;
  is_error : bool;
}.

Inductive content_block :=
  | Text (text : string)
  | ToolUse (id name : string) (input : Json)
  | ToolResult (result : ToolResultBlockParam).

Inductive message_content :=
  | ContentString (s : string)
  | ContentBlocks (blocks : list content_block).

Inductive role := user | assistant.

Record MessageParam := {
  msg_role : role;
  msg_content : message_content;
}.

Definition block_param (b : response_block) : content_block :=
  match b with
  | TextBlock text => Text text
  | ToolUseBlock id name input => ToolUse id name input
  end.

(** [{ role: "assistant", content: responseBlocks }] *)
Definition assistant_message (responseBlocks : list response_block) : MessageParam :=
  {| msg_role := assistant; msg_content := ContentBlocks (block_param <$> responseBlocks) |}.

(** [{ role: "user", content: resultBlocks }] *)
Definition user_message (resultBlocks : list ToolResultBlockParam) : MessageParam :=
  {| msg_role := user; msg_content := ContentBlocks (ToolResult <$> resultBlocks) |}.

Inductive delta :=
  | text_delta (text : string)
  | input_json_delta (partial_json : string).

(** [RawMessageStreamEvent]. The three kinds the [switch] has a case for,
    and [other_event] for the kinds it has none for ([message_start],
    [message_delta], [message_stop]). *)
Inductive event :=
  | content_block_start (content_block : response_block)
  | content_block_delta (d : delta)
  | content_block_stop
  | other_event.

(** ** The stream assembler: the [for await] loop of [stream]

    [pendingBlock] and the entries of [responseBlocks] are references to
    block objects, and the assignments [pendingBlock.text = ...] and
    [pendingBlock.input = ...] write through the reference. The objects live
    in [heap]; every [content_block_start] event brings a new one. *)
Record assembler := {
  heap : list response_block;
  pendingBlock : option nat;
  responseBlocks : list nat;
  pendingText : string;
}.

(** The locals of one turn as declared at the top of the [while] body. *)
Definition assembler_init : assembler :=
  {| heap := []; pendingBlock := None; responseBlocks := []; pendingText := "" |}.

(** [pendingText = ""; responseBlocks.push(pendingBlock)] after the pending
    object has been overwritten with [block]. *)
Definition finalize (st : assembler) (r : nat) (block : response_block) : assembler :=
  {| heap := <[r := block]> (heap st);
     pendingBlock := pendingBlock st;
     responseBlocks := responseBlocks st ++ [r];
     pendingText := "" |}.

Definition append_text (st : assembler) (s : string) : assembler :=
  {| heap := heap st;
     pendingBlock := pendingBlock st;
     responseBlocks := responseBlocks st;
     pendingText := pendingText st +:+ s |}.

(** One pass through the [switch]: the strings yielded, and the exception
    thrown or the next state. *)
Definition on_chunk (chunk : event) (st : assembler) : list string * (thrown + assembler) :=
  match chunk with
  | content_block_start block =>
      ([], inr {| heap := heap st ++ [block];
                  pendingBlock := Some (length (heap st));
                  responseBlocks := responseBlocks st;
                  pendingText := pendingText st |})
  | content_block_stop =>
      match pendingBlock st with
      | None => ([], inl (JsError "Unexpected content_block_stop"))
      | Some r =>
          match heap st !! r with
          | Some (TextBlock _) =>
              ([newline], inr (finalize st r (TextBlock (pendingText st))))
          | Some (ToolUseBlock id name _) =>
              if decide (pendingText st = "") then
                ([], inr (finalize st r (ToolUseBlock id name empty_object)))
              else
                match JSON_parse (pendingText st) with
                | inl message => ([], inl (JsError message))
                | inr value => ([], inr (finalize st r (ToolUseBlock id name value)))
                end
          | None => ([], inr st) (* not reached: [allocated_for_await] *)
          end
      end
  | content_block_delta (input_json_delta partial_json) =>
      ([], inr (append_text st partial_json))
  | content_block_delta (text_delta text) =>
      ([text], inr (append_text st text))
  | other_event => ([], inr st)
  end.

(** [for await (const chunk of response) { switch ... }] *)
Fixpoint for_await (response : list event) (st : assembler)
  : list string * (thrown + assembler) :=
  match response with
  | [] => ([], inr st)
  | chunk :: rest =>
      match on_chunk chunk st with
      | (yields, inl e) => (yields, inl e)
      | (yields, inr st') =>
          let '(yields', r) := for_await rest st' in (yields ++ yields', r)
      end
  end.

(** The block objects [responseBlocks] refers to, as they are when the
    [for await] loop has ended. *)
Definition finalized (st : assembler) : list response_block :=
  omap (λ r, heap st !! r) (responseBlocks st).

(** ** Tools and the request sent to the provider *)

Record Tool := {
  tool_name : string;
  input_schema : Json;
  description : option string;
}.

Inductive tool_choice := tool_choice_auto.

(** The argument of [client.messages.create]: the merged options, the
    history as it is at the time of the call, the tool descriptions, and
    [tool_choice]; [stream] is always [true]. *)
Record request := {
  req_options : gmap string Json;
  req_messages : list MessageParam;
  req_tools : list Tool;
  req_tool_choice : option tool_choice;
}.

End Model.

(** The provider behind [client.messages.create], and the state [World] of
    everything a call to it or to a tool handler may read and change. The
    provider answers a request with the finite sequence of events of one
    turn. *)
Class Provider `{Platform} := {
  World : Type;
  messages_create : request → World → list event * World;
}.

(** [(input: unknown) => Promise<string>]: the promise resolves with a
    string ([inr]) or rejects with a thrown value ([inl]). *)
Abbreviation tool_handler := (Json → World → (thrown + string) * World) (only parsing).

Section Client.
Context `{Provider}.

Record ClaudeClient := {
  options : gmap string Json;
  tools : list Tool;
  toolHandlers : gmap string tool_handler;
}.

(** The tool state the constructor sets up: [tools = []] and
    [toolHandlers = new Map()]; [opts] are the options once the defaults
    and the options given have been merged. *)
Definition new_client (opts : gmap string Json) : ClaudeClient :=
  {| options := opts; tools := []; toolHandlers := ∅ |}.

(** [this.tools.push(tool); this.toolHandlers.set(tool.name, handler)] *)
Definition addTool (c : ClaudeClient) (tool : Tool) (handler : tool_handler) : ClaudeClient :=
  {| options := options c;
     tools := tools c ++ [tool];
     toolHandlers := <[tool_name tool := handler]> (toolHandlers c) |}.

(** What the class uses of a [ZodSchema<T>]: [schema.parse], which returns
    the parsed value or throws a [ZodError] (a subclass of [Error]) with a
    message; [schema.description]; and
    [zodToJsonSchema(schema, "input").definitions?.input]. *)
Record ZodSchema (T : Type) := {
  zod_parse : Json → string + T;
  zod_description : option string;
  zod_input_definition : option Json;
}.
Arguments zod_parse {T}.
Arguments zod_description {T}.
Arguments zod_input_definition {T}.

Definition zodToInputSchema {T} (schema : ZodSchema T) : thrown + Json :=
  match zod_input_definition schema with
  | None => inl (JsError "Failed to convert Zod schema to JSON schema")
  | Some jsonSchema => inr jsonSchema
  end.

(** [async (input) => { return handler(schema.parse(input)); }] *)
Definition zod_wrapper {T} (schema : ZodSchema T)
    (handler : T → World → (thrown + string) * World) : tool_handler :=
  λ input w,
    match zod_parse schema input with
    | inl message => (inl (JsError message), w)
    | inr parsed => handler parsed w
    end.

Definition addZodTool {T} (c : ClaudeClient) (name : string) (schema : ZodSchema T)
    (handler : T → World → (thrown + string) * World) : thrown + ClaudeClient :=
  match zodToInputSchema schema with
  | inl e => inl e
  | inr input_schema =>
      inr (addTool c
             {| tool_name := name;
                input_schema := input_schema;
                description := zod_description schema |}
             (zod_wrapper schema handler))
  end.

(** The request [createStream] builds; [{ ...this.options, ...options }]
    lets the options of the call win. *)
Definition createStream (c : ClaudeClient) (messages : list MessageParam)
    (call_options : gmap string Json) : request :=
  {| req_options := call_options ∪ options c;
     req_messages := messages;
     req_tools := tools c;
     req_tool_choice :=
       if decide (0 < length (tools c)) then Some tool_choice_auto else None |}.

(** ** Tool dispatch: the [for (const block of responseBlocks)] loop *)

Definition tool_result (id text : string) : ToolResultBlockParam :=
  {| tool_use_id := id; content := text; is_error := false |}.

Definition tool_error (id message : string) : ToolResultBlockParam :=
  {| tool_use_id := id; content := message; is_error := true |}.

(** The body of the loop for one block. *)
Definition dispatch_block (c : ClaudeClient) (block : response_block)
    (resultBlocks : list ToolResultBlockParam) (w : World)
  : (thrown + list ToolResultBlockParam) * World :=
  match block with
  | TextBlock _ => (inr resultBlocks, w)
  | ToolUseBlock id name input =>
      match toolHandlers c !! name with
      | None => (inl (JsError ("No handler for tool " +:+ name)), w)
      | Some handler =>
          match handler input w with
          | (inr toolResult, w') => (inr (resultBlocks ++ [tool_result id toolResult]), w')
          | (inl (JsError message), w') => (inr (resultBlocks ++ [tool_error id message]), w')
          | (inl (NonError v), w') => (inl (NonError v), w')
          end
      end
  end.

Fixpoint dispatch (c : ClaudeClient) (blocks : list response_block)
    (resultBlocks : list ToolResultBlockParam) (w : World)
  : (thrown + list ToolResultBlockParam) * World :=
  match blocks with
  | [] => (inr resultBlocks, w)
  | block :: rest =>
      match dispatch_block c block resultBlocks w with
      | (inl e, w') => (inl e, w')
      | (inr resultBlocks', w') => dispatch c rest resultBlocks' w'
      end
  end.

(** ** The conversation loop: the [while (true)] of [stream] *)

(** What a caller that drains the generator observes: the array [messages]
    it passed in, the strings yielded so far, the requests sent to the
    provider so far, and the world. *)
Record stream_state := {
  messages : list MessageParam;
  yielded : list string;
  requests : list request;
  world : World;
}.

(** How the generator ended: it returned (the [break]) or it threw. *)
Inductive completion :=
  | Returned
  | Thrown (e : thrown).

(** One pass through the body of the [while]: [Some] when the generator
    ends in this pass, [None] when the loop goes round again. *)
Definition turn (c : ClaudeClient) (call_options : gmap string Json) (s : stream_state)
  : option completion * stream_state :=
  let req := createStream c (messages s) call_options in
  let '(response, w1) := messages_create req (world s) in
  let requests1 := requests s ++ [req] in
  match for_await response assembler_init with
  | (yields, inl e) =>
      (Some (Thrown e),
       {| messages := messages s; yielded := yielded s ++ yields;
          requests := requests1; world := w1 |})
  | (yields, inr st) =>
      let responseBlocks := finalized st in
      let messages1 := messages s ++ [assistant_message responseBlocks] in
      match dispatch c responseBlocks [] w1 with
      | (inl e, w2) =>
          (Some (Thrown e),
           {| messages := messages1; yielded := yielded s ++ yields;
              requests := requests1; world := w2 |})
      | (inr resultBlocks, w2) =>
          if decide (length resultBlocks = 0) then
            (Some Returned,
             {| messages := messages1; yielded := yielded s ++ yields;
                requests := requests1; world := w2 |})
          else
            (None,
             {| messages := messages1 ++ [user_message resultBlocks];
                yielded := yielded s ++ yields;
                requests := requests1; world := w2 |})
      end
  end.

(** The loop, cut off after [fuel] turns: [None] when it is still running
    then. The source has no bound on the number of turns. *)
Fixpoint stream (fuel : nat) (c : ClaudeClient) (call_options : gmap string Json)
    (s : stream_state) : option completion * stream_state :=
  match fuel with
  | 0 => (None, s)
  | S fuel' =>
      match turn c call_options s with
      | (Some r, s') => (Some r, s')
      | (None, s') => stream fuel' c call_options s'
      end
  end.

(** The state in which a call [stream(messages, options)] starts. *)
Definition stream_start (messages : list MessageParam) (w : World) : stream_state :=
  {| messages := messages; yielded := []; requests := []; world := w |}.

End Client.

Arguments zod_parse {_ T}.
Arguments zod_description {_ T}.
Arguments zod_input_definition {_ T}.

(** ** A concrete platform, provider and client

    Used to run the model on concrete conversations. [sample_parse] stands
    in for [JSON.parse] on the three texts below: the empty object, the
    object with one numeric field that the dice tool takes, and an
    unterminated object, which is not JSON. *)
Module Sample.

Inductive json :=
  | JNumber (n : Z)
  | JObject (fields : list (string * Z)).

Definition quote : string := String "034"%char "".

(** The text of an object with the one field [sides], set to 6. *)
Definition sides_text : string := "{" +:+ quote +:+ "sides" +:+ quote +:+ ":6}".

Definition sample_parse (s : string) : string + json :=
  if decide (s = "{}") then inr (JObject [])
  else if decide (s = sides_text) then inr (JObject [("sides", 6%Z)])
  else inl "Unexpected end of JSON input".

#[export] Instance platform : Platform :=
  {| Json := json; empty_object := JObject []; JSON_parse := sample_parse |}.

(** The world of the examples: the turns the provider will still answer
    with, and a log of the handler calls made so far. *)
Record world_state := {
  script : list (list event);
  calls : list string;
}.

Definition scripted (turns : list (list event)) : world_state :=
  {| script := turns; calls := [] |}.

Definition sample_create (req : request) (w : world_state) : list event * world_state :=
  (default [] (head (script w)), {| script := tail (script w); calls := calls w |}).

#[export] Instance provider : Provider :=
  {| World := world_state; messages_create := sample_create |}.

Definition logged (label : string) (w : world_state) : world_state :=
  {| script := script w; calls := calls w ++ [label] |}.

(** A handler that resolves with ["4"]. *)
Definition roll_dice : tool_handler := λ _ w, (inr "4", logged "roll_dice" w).

(** A handler that throws [new Error("division by zero")]. *)
Definition divide : tool_handler :=
  λ _ w, (inl (JsError "division by zero"), logged "divide" w).

(** A handler that throws a value that is not an [Error]. *)
Definition crash : tool_handler := λ _ w, (inl (NonError "oops"), logged "crash" w).

Definition describe (name : string) : Tool :=
  {| tool_name := name; input_schema := JObject []; description := None |}.

Definition client : ClaudeClient :=
  addTool (addTool (addTool (new_client ∅) (describe "roll_dice") roll_dice)
             (describe "divide") divide)
    (describe "crash") crash.

(** A schema for [{ sides: number }], and the dice handler behind it. *)
Definition sides_schema : ZodSchema Z :=
  {| zod_parse := λ input,
       match input with
       | JObject [(field, n)] =>
           if decide (field = "sides") then inr n else inl "Required"
       | _ => inl "Required"
       end;
     zod_description := Some "Roll a dice with the given number of sides";
     zod_input_definition := Some (JObject []) |}.

Definition dice (sides : Z) (w : world_state) : (thrown + string) * world_state :=
  (inr "4", logged "dice" w).

Definition hi : list MessageParam :=
  [{| msg_role := user; msg_content := ContentString "hi" |}].

Definition text_events (chunks : list string) : list event :=
  content_block_start (TextBlock "")
    :: ((λ t, content_block_delta (text_delta t)) <$> chunks) ++ [content_block_stop].

Definition tool_events (id name text : string) : list event :=
  [content_block_start (ToolUseBlock id name (JObject []));
   content_block_delta (input_json_delta text);
   content_block_stop].

(** A call [stream(hi)] against a provider that answers with [turns], and
    the world once the first of them has been handed out. *)
Definition conversation (turns : list (list event)) : stream_state :=
  stream_start hi (scripted turns).

Definition answered (turns : list (list event)) : world_state :=
  {| script := tail turns; calls := [] |}.

(** The assembler after a turn of the single block [block]. *)
Definition finished (block : response_block) : assembler :=
  {| heap := [block]; pendingBlock := Some 0; responseBlocks := [0]; pendingText := "" |}.

Definition dice_block : response_block :=
  ToolUseBlock "tu_1" "roll_dice" (JObject [("sides", 6%Z)]).

Definition divide_block : response_block := ToolUseBlock "tu_2" "divide" (JObject []).

Definition unknown_block : response_block :=
  ToolUseBlock "tu_3" "unknown_tool" (JObject []).

(** Two registrations under one name. *)
Definition registered_twice : ClaudeClient :=
  addTool (addTool (new_client ∅) (describe "roll_dice") roll_dice)
    (describe "roll_dice") divide.

(** The client that [addZodTool] makes of the dice schema. *)
Definition zod_client : ClaudeClient :=
  addTool (new_client ∅)
    {| tool_name := "roll_dice"; input_schema := JObject [];
       description := Some "Roll a dice with the given number of sides" |}
    (zod_wrapper sides_schema dice).

End Sample.

(** ** Vocabulary of the properties *)

Section Vocabulary.
Context `{Provider}.

(** The invocation identifiers of the tool-use blocks of a turn, in order. *)
Definition tool_use_ids (blocks : list response_block) : list string :=
  omap (λ b, match b with
             | ToolUseBlock id _ _ => Some id
             | TextBlock _ => None
             end) blocks.

(** The payloads of the delta events of a run of events, text and partial
    JSON alike, in order: what the run appends to [pendingText]. *)
Definition delta_payloads (events : list event) : list string :=
  omap (λ e, match e with
             | content_block_delta (text_delta t) => Some t
             | content_block_delta (input_json_delta t) => Some t
             | _ => None
             end) events.

(** The payloads of the text deltas only: what the run yields. *)
Definition text_payloads (events : list event) : list string :=
  omap (λ e, match e with
             | content_block_delta (text_delta t) => Some t
             | _ => None
             end) events.

(** The block a [content_block_start] event declared most recently in a
    run of events, if any. *)
Definition last_declared (events : list event) : option response_block :=
  last (omap (λ e, match e with
                   | content_block_start b => Some b
                   | _ => None
                   end) events).

(** What a [content_block_stop] makes of the pending block [block] when the
    buffer holds [text]. *)
Definition finalize_block (block : response_block) (text : string)
  : thrown + response_block :=
  match block with
  | TextBlock _ => inr (TextBlock text)
  | ToolUseBlock id name _ =>
      if decide (text = "") then inr (ToolUseBlock id name empty_object)
      else match JSON_parse text with
           | inl message => inl (JsError message)
           | inr value => inr (ToolUseBlock id name value)
           end
  end.

(** The [for await] loop of one turn from its initial state: what it
    yields, and the exception or the blocks of [responseBlocks]. *)
Definition assembled (events : list event) : list string * (thrown + list response_block) :=
  match for_await events assembler_init with
  | (ys, inl e) => (ys, inl e)
  | (ys, inr st) => (ys, inr (finalized st))
  end.

(** What finalizing [block] yields: the line feed for a text block. *)
Definition stop_yields (block : response_block) : list string :=
  match block with
  | TextBlock _ => [newline]
  | ToolUseBlock _ _ _ => []
  end.

(** Every reference the assembler holds points into the heap. *)
Definition allocated (st : assembler) : Prop :=
  (∀ r, pendingBlock st = Some r → r < length (heap st))
  ∧ Forall (λ r, r < length (heap st)) (responseBlocks st).

(** The events the [switch] has a case for. *)
Definition significant (events : list event) : list event :=
  omap (λ e, match e with
             | other_event => None
             | _ => Some e
             end) events.





(** A tool-use block that dispatch can answer: its tool has a handler, and
    the handler never fails with a value that is not an [Error]. *)
Definition answerable (c : ClaudeClient) (block : response_block) : Prop :=
  match block with
  | TextBlock _ => True
  | ToolUseBlock _ name input =>
      ∃ handler, toolHandlers c !! name = Some handler
                 ∧ ∀ w v, (handler input w).1 ≠ inl (NonError v)
  end.

(** The state of the generator after a turn that started in [s]: the
    request of the turn has been sent, [new_messages] have been pushed on
    the history, [ys] have been yielded, and the world is [w]. *)
Definition advanced (c : ClaudeClient) (call_options : gmap string Json) (s : stream_state)
    (new_messages : list MessageParam) (ys : list string) (w : World) : stream_state :=
  {| messages := messages s ++ new_messages;
     yielded := yielded s ++ ys;
     requests := requests s ++ [createStream c (messages s) call_options];
     world := w |}.

(** The tool descriptions registered under [name]. *)
Definition described (name : string) (c : ClaudeClient) : list Tool :=
  filter (λ t, tool_name t = name) (tools c).

End Vocabulary.

(** ** The constructor and the system prompt *)

(** The string and number literals of the platform, as values. *)
Class Literals `{Platform} := {
  json_string : string → Json;
  json_number : Z → Json;
}.

Section Construction.
Context `{Provider} `{!Literals}.

(** The options the constructor starts from. *)
Definition default_options : gmap string Json :=
  {[ "model" := json_string "anthropic.claude-3-5-sonnet-latest";
     "max_tokens" := json_number 8192 ]}.

(** [new ClaudeClient(options)]: [Object.assign] lets the options given win
    over the defaults. *)
Definition constructor (opts : gmap string Json) : ClaudeClient :=
  new_client (opts ∪ default_options).

(** [this.options.system = prompt] *)
Definition system (c : ClaudeClient) (prompt : string) : ClaudeClient :=
  {| options := <["system" := json_string prompt]> (options c);
     tools := tools c;
     toolHandlers := toolHandlers c |}.

(** The keys of the request that [createStream] sets itself, after the
    options have been spread into it. *)
Definition reserved_keys : list string := ["messages"; "tools"; "tool_choice"; "stream"].

(** The clients that the public methods of the class can build. *)
Inductive built : ClaudeClient → Prop :=
  | built_constructor (opts : gmap string Json) : built (constructor opts)
  | built_system (c : ClaudeClient) (prompt : string) :
      built c → built (system c prompt)
  | built_addZodTool {T : Type} (c c' : ClaudeClient) (name : string)
      (schema : ZodSchema T) (handler : T → World → (thrown + string) * World) :
      built c → addZodTool c name schema handler = inr c' → built c'.

End Construction.

(** ** [extractUrls]

    Regular expressions and URLs belong to the platform. A regular
    expression is given by its source and its flags; [String_match_all] is
    [text.match(re)] for a pattern with the flag [g], [String_match] is
    [link.match(re)] for a pattern without it (the match and its groups, a
    group that took no part being [None]), and [RegExp_test] is
    [re.test(text)]. [URL_new href base] is [None] when [new URL(href, base)]
    throws. *)
Record RegExp := {
  source : string;
  flags : string;
}.

Class Web := {
  String_match_all : string → RegExp → option (list string);
  String_match : string → RegExp → option (list (option string));
  RegExp_test : RegExp → string → bool;
  URL : Type;
  URL_new : string → URL → option URL;
  url_host : URL → string;
  url_pathname : URL → string;
  url_href : URL → string;
  url_set_hash : URL → string → URL;
}.

Definition double_quote : string := String "034"%char "".

Definition IGNROED_HOSTS : gset string :=
  {[ "www.google.com"; "www.gstatic.com"; "fonts.googleapis.com"; "fonts.gstatic.com" ]}.

Definition IGNORED_PATHS : list RegExp :=
  [ {| source := "\/(images|_next\/image)\/"; flags := "" |};
    {| source := "\/(images|_next\/image)\/"; flags := "" |};
    {| source := ".*\.(webp|png|jpe?g|svg)(\?.*)?$"; flags := "" |} ].

Definition plain_pattern : RegExp :=
  {| source := "\bhttps?:\/\/[^\s<>)" +:+ double_quote +:+ "'!]+"; flags := "gi" |}.

Definition markdown_pattern : RegExp :=
  {| source := "[^!]\[([^\]]*)\]\(([^)!]+)\)"; flags := "g" |}.

Definition target_pattern : RegExp :=
  {| source := "\(([^)!]+)\)"; flags := "" |}.

Section ExtractUrls.
Context `{Web}.

(** [result.add(x)] on a [Set], which keeps the order of insertion. *)
Definition set_add (x : string) (result : list string) : list string :=
  if decide (x ∈ result) then result else result ++ [x].

(** [link.match(...)?.[1] ?? ""] *)
Definition markdown_target (link : string) : string :=
  match String_match link target_pattern with
  | Some groups =>
      match (groups !! 1) with
      | Some (Some target) => target
      | _ => ""
      end
  | None => ""
  end.

(** The hrefs the loop goes through: [[...plain, ...markdownUrls]]. *)
Definition hrefs (text : string) : list string :=
  default [] (String_match_all text plain_pattern)
  ++ (markdown_target <$> default [] (String_match_all text markdown_pattern)).

(** The body of the loop. *)
Definition visit (base : URL) (result : list string) (href : string) : list string :=
  match URL_new href base with
  | None => result
  | Some url =>
      if decide (url_host url ∈ IGNROED_HOSTS) then result
      else if existsb (λ re, RegExp_test re (url_pathname url)) IGNORED_PATHS then result
      else
        let url' := url_set_hash url "" in
        if decide (url_href url' = url_href base) then result
        else set_add (url_href url') result
  end.

Definition extractUrls (text : string) (base : URL) : list string :=
  foldl (visit base) [] (hrefs text).

(** What the loop keeps of [href]: the href, without its fragment, of the
    URL it resolves to, when that URL is not ignored and is not the base. *)
Definition kept (base : URL) (href x : string) : Prop :=
  ∃ url, URL_new href base = Some url
    ∧ (url_host url ∉ IGNROED_HOSTS)
    ∧ Forall (λ re, RegExp_test re (url_pathname url) = false) IGNORED_PATHS
    ∧ x = url_href (url_set_hash url "")
    ∧ x ≠ url_href base.

End ExtractUrls.

(** ** More vocabulary *)

Section More_vocabulary.
Context `{Provider}.

(** The text a delta carries. *)
Definition payload (d : delta) : string :=
  match d with
  | text_delta t => t
  | input_json_delta t => t
  end.

(** What the deltas of a block yield: the text deltas. *)
Definition delta_yields (deltas : list delta) : list string :=
  omap (λ d, match d with
             | text_delta t => Some t
             | input_json_delta _ => None
             end) deltas.

(** The events of a well-formed block: its start, its deltas, its stop. *)
Definition block_events (block : response_block) (deltas : list delta) : list event :=
  content_block_start block :: (content_block_delta <$> deltas) ++ [content_block_stop].

(** A turn of well-formed blocks, each given by the block its start event
    declares and by its deltas: the events, and what they yield. *)
Definition turn_events (blocks : list (response_block * list delta)) : list event :=
  concat ((λ p, block_events p.1 p.2) <$> blocks).

Definition turn_yields (blocks : list (response_block * list delta)) : list string :=
  concat ((λ p, delta_yields p.2 ++ stop_yields p.1) <$> blocks).

(** What the block becomes when its stop event comes. *)
Definition finalized_as (p : response_block * list delta) : thrown + response_block :=
  finalize_block p.1 (join (payload <$> p.2)).

(** The number of [content_block_stop] events. *)
Definition stop_count (events : list event) : nat :=
  length (omap (λ e, match e with
                     | content_block_stop => Some ()
                     | _ => None
                     end) events).

(** The roles of [n] rounds of the loop: an assistant message and the user
    message that answers it. *)
Definition rounds (n : nat) : list role := concat (replicate n [assistant; user]).

(** The names of the tools described to the provider. *)
Definition described_names (c : ClaudeClient) : list string := tool_name <$> tools c.

(** The names of the tools the tool-use blocks ask for. *)
Definition requested_names (blocks : list response_block) : list string :=
  omap (λ b, match b with
             | ToolUseBlock _ name _ => Some name
             | TextBlock _ => None
             end) blocks.

End More_vocabulary.

(** A platform whose values are strings, numbers and flat objects, a
    provider that answers every request with the empty stream, and a
    client built through the public methods, for concrete runs. *)
Module Built.

Inductive value :=
  | VString (s : string)
  | VNumber (n : Z)
  | VObject (fields : list (string * Z)).

#[export] Instance platform : Platform :=
  {| Json := value;
     empty_object := VObject [];
     JSON_parse := λ s, if decide (s = "{}") then inr (VObject [])
                        else inl "Unexpected end of JSON input" |}.

#[export] Instance provider : Provider :=
  {| World := list string; messages_create := λ _ w, ([], w) |}.

#[export] Instance literals : Literals :=
  {| json_string := VString; json_number := VNumber |}.

Definition sides_schema : ZodSchema Z :=
  {| zod_parse := λ input,
       match input with
       | VObject [(field, n)] =>
           if decide (field = "sides") then inr n else inl "Required"
       | _ => inl "Required"
       end;
     zod_description := Some "Roll a dice with the given number of sides";
     zod_input_definition := Some (VObject []) |}.

Definition dice (sides : Z) (w : list string) : (thrown + string) * list string :=
  (inr "4", w ++ ["dice"]).

(** The client after [system("Be brief")] and
    [addZodTool("roll_dice", ...)]. *)
Definition dice_client : ClaudeClient :=
  addTool (system (constructor ∅) "Be brief")
    {| tool_name := "roll_dice"; input_schema := VObject [];
       description := Some "Roll a dice with the given number of sides" |}
    (zod_wrapper sides_schema dice).

(** A handler that throws a value that is not an [Error], and the client
    after [addZodTool("crash", ...)] with it. *)
Definition crash (sides : Z) (w : list string) : (thrown + string) * list string :=
  (inl (NonError "oops"), w ++ ["crash"]).

Definition crash_client : ClaudeClient :=
  addTool (constructor ∅)
    {| tool_name := "crash"; input_schema := VObject [];
       description := Some "Roll a dice with the given number of sides" |}
    (zod_wrapper sides_schema crash).

End Built.

(** * Properties *)

(** ** Strings *)

Lemma append_nil_r (s : string) : s +:+ "" = s.
Proof.
  induction s as [|a s IH]; [done|].
  change (String a (s +:+ "") = String a s). by rewrite IH.
Qed.

Lemma append_assoc (s1 s2 s3 : string) : (s1 +:+ s2) +:+ s3 = s1 +:+ s2 +:+ s3.
Proof.
  induction s1 as [|a s1 IH]; [done|].
  change (String a ((s1 +:+ s2) +:+ s3) = String a (s1 +:+ s2 +:+ s3)).
  by rewrite IH.
Qed.

Lemma join_app (l1 l2 : list string) : join (l1 ++ l2) = join l1 +:+ join l2.
Proof.
  induction l1 as [|s l1 IH]; [done|].
  change (s +:+ join (l1 ++ l2) = (s +:+ join l1) +:+ join l2).
  by rewrite IH, append_assoc.
Qed.

Lemma join_singleton (s : string) : join [s] = s.
Proof. apply append_nil_r. Qed.

(** ** The stream assembler *)

Section Assembler_facts.
Context `{Platform}.

Lemma for_await_app (l1 l2 : list event) (st : assembler) :
  for_await (l1 ++ l2) st =
    match for_await l1 st with
    | (ys, inl e) => (ys, inl e)
    | (ys, inr st') => let '(ys', r) := for_await l2 st' in (ys ++ ys', r)
    end.
Proof.
  revert st. induction l1 as [|chunk l1 IH]; intros st; simpl.
  - by destruct (for_await l2 st).
  - destruct (on_chunk chunk st) as [ys [e|st']]; [done|].
    rewrite IH. destruct (for_await l1 st') as [ys1 [e|st1]]; [done|].
    destruct (for_await l2 st1) as [ys2 r]. by rewrite app_assoc.
Qed.

Lemma for_await_snoc (l : list event) (chunk : event) (st : assembler) :
  for_await (l ++ [chunk]) st =
    match for_await l st with
    | (ys, inl e) => (ys, inl e)
    | (ys, inr st') =>
        match on_chunk chunk st' with
        | (ys', r) => (ys ++ ys', r)
        end
    end.
Proof.
  rewrite for_await_app. destruct (for_await l st) as [ys [e|st']]; [done|].
  simpl. destruct (on_chunk chunk st') as [ys' [e|st'']]; [done|].
  by rewrite app_nil_r.
Qed.

(** Events the [switch] has no case for change nothing. *)
Lemma for_await_significant (events : list event) (st : assembler) :
  for_await (significant events) st = for_await events st.
Proof.
  revert st. induction events as [|chunk events IH]; intros st; [done|].
  assert (Hcons : chunk ≠ other_event →
            for_await (significant (chunk :: events)) st = for_await (chunk :: events) st).
  { intros Hc. replace (significant (chunk :: events)) with (chunk :: significant events)
      by by destruct chunk.
    cbn [for_await]. destruct (on_chunk chunk st) as [ys [e|st']]; [done|].
    by rewrite IH. }
  destruct chunk; try (by apply Hcons).
  simpl. rewrite <- IH. by destruct (for_await (significant events) st).
Qed.

Lemma allocated_init : allocated assembler_init.
Proof. split; [done|constructor]. Qed.

Lemma allocated_finalize (st : assembler) (r : nat) (block : response_block) :
  allocated st → pendingBlock st = Some r → allocated (finalize st r block).
Proof.
  intros [Hp Hr] Hr0. split; simpl; rewrite length_insert; [done|].
  apply Forall_app; split; [done|]. constructor; [by apply Hp|constructor].
Qed.

Lemma allocated_on_chunk (chunk : event) (st st' : assembler) (ys : list string) :
  allocated st → on_chunk chunk st = (ys, inr st') → allocated st'.
Proof.
  intros Hst Hstep. destruct chunk as [block|[t|t]| |]; simpl in Hstep.
  - simplify_eq. destruct Hst as [Hp Hr]. split; simpl; rewrite length_app; simpl.
    + intros r [= <-]. lia.
    + eapply Forall_impl; [done|]. simpl. lia.
  - by simplify_eq.
  - by simplify_eq.
  - destruct (pendingBlock st) as [r|] eqn:Hr; [|done].
    destruct (heap st !! r) as [[t|id name input]|]; simplify_eq.
    + by apply allocated_finalize.
    + case_decide; simplify_eq; [by apply allocated_finalize|].
      destruct (JSON_parse (pendingText st)); simplify_eq.
      by apply allocated_finalize.
    + done.
  - by simplify_eq.
Qed.

Lemma allocated_for_await (events : list event) (st st' : assembler) (ys : list string) :
  allocated st → for_await events st = (ys, inr st') → allocated st'.
Proof.
  revert st ys. induction events as [|chunk events IH]; intros st ys Hst Hrun; simpl in Hrun.
  - by simplify_eq.
  - destruct (on_chunk chunk st) as [ys1 [e|st1]] eqn:Hstep; [done|].
    destruct (for_await events st1) as [ys2 r] eqn:Hrest. simplify_eq.
    eapply IH; [|done]. by eapply allocated_on_chunk.
Qed.

End Assembler_facts.

Section Assembler_runs.
Context `{Platform}.

Lemma omap_pointwise {A B} (f g : A → option B) (l : list A) :
  Forall (λ x, f x = g x) l → omap f l = omap g l.
Proof.
  induction 1 as [|x l Hx _ IH]; [done|].
  cbn [omap list_omap]. by rewrite Hx, IH.
Qed.

(** Overwriting an object that [responseBlocks] does not refer to yet,
    and pushing it, adds one block and changes none. *)
Lemma finalized_finalize_fresh (st : assembler) (r : nat) (block : response_block) :
  Forall (λ x, x < r) (responseBlocks st) → r < length (heap st) →
  finalized (finalize st r block) = finalized st ++ [block].
Proof.
  intros Hold Hr. unfold finalized, finalize; simpl. rewrite omap_app. f_equal.
  - apply omap_pointwise. eapply Forall_impl; [done|]. simpl. intros x Hx.
    apply list_lookup_insert_ne. lia.
  - cbn [omap list_omap]. by rewrite list_lookup_insert_eq.
Qed.

(** Pushing the pending object adds the block it now holds at the end. *)
Lemma last_finalized_finalize (st : assembler) (r : nat) (block : response_block) :
  r < length (heap st) → last (finalized (finalize st r block)) = Some block.
Proof.
  intros Hr. unfold finalized, finalize; simpl. rewrite omap_app.
  cbn [omap list_omap]. rewrite list_lookup_insert_eq by done. apply last_snoc.
Qed.

(** What [content_block_stop] does, in terms of [finalize_block]. *)
Lemma on_chunk_stop (st : assembler) (r : nat) (block : response_block) :
  pendingBlock st = Some r → heap st !! r = Some block →
  on_chunk content_block_stop st =
    match finalize_block block (pendingText st) with
    | inl e => ([], inl e)
    | inr block' => (stop_yields block, inr (finalize st r block'))
    end.
Proof.
  intros Hr Hb. unfold on_chunk, finalize_block. rewrite Hr, Hb.
  destruct block as [t|id name input]; [done|].
  case_decide; [done|]. by destruct (JSON_parse (pendingText st)).
Qed.

(** Every accepted [content_block_stop] leaves the buffer empty. *)
Lemma on_chunk_stop_resets (st st' : assembler) (ys : list string) :
  on_chunk content_block_stop st = (ys, inr st') → allocated st → pendingText st' = "".
Proof.
  intros Hstep [Hp _]. simpl in Hstep.
  destruct (pendingBlock st) as [r|] eqn:Hr; [|done].
  destruct (lookup_lt_is_Some_2 (heap st) r (Hp r eq_refl)) as [block Hb].
  rewrite Hb in Hstep. destruct block as [t|id name input]; simplify_eq; [done|].
  case_decide; simplify_eq; [done|].
  by destruct (JSON_parse (pendingText st)); simplify_eq.
Qed.

(** A run of events without a [content_block_stop] never throws. It yields
    its text deltas, appends all its deltas to the buffer, leaves
    [responseBlocks] alone, and leaves pending the block declared last. *)
Lemma for_await_stop_free (mid : list event) (st : assembler) :
  content_block_stop ∉ mid →
  ∃ st', for_await mid st = (text_payloads mid, inr st')
    ∧ pendingText st' = pendingText st +:+ join (delta_payloads mid)
    ∧ responseBlocks st' = responseBlocks st
    ∧ heap st `prefix_of` heap st'
    ∧ match last_declared mid with
      | Some block =>
          ∃ r, pendingBlock st' = Some r ∧ heap st' !! r = Some block
               ∧ (length (heap st) ≤ r)%nat
      | None => pendingBlock st' = pendingBlock st ∧ heap st' = heap st
      end.
Proof.
  induction mid as [|chunk mid IH] using rev_ind; intros Hfree.
  - exists st. simpl. by rewrite append_nil_r.
  - apply not_elem_of_app in Hfree as [Hmid Hchunk].
    destruct (IH Hmid) as (st1 & Hrun & Htext & Hresp & Hlen & Hpend).
    rewrite for_await_snoc, Hrun. unfold text_payloads, delta_payloads, last_declared.
    rewrite !omap_app.
    destruct chunk as [block|[t|t]| |]; cbn [omap list_omap on_chunk].
    + eexists. split; [by rewrite !app_nil_r|]. simpl.
      rewrite app_nil_r, last_snoc.
      split_and!; [done..|by apply prefix_app_r|].
      exists (length (heap st1)). split_and!; [done| |by apply prefix_length].
      rewrite lookup_app_r by lia. by rewrite Nat.sub_diag.
    + eexists. split; [done|]. simpl. rewrite !app_nil_r.
      rewrite join_app, join_singleton, Htext, append_assoc. by split_and!.
    + eexists. split; [by rewrite !app_nil_r|]. simpl. rewrite !app_nil_r.
      rewrite join_app, join_singleton, Htext, append_assoc. by split_and!.
    + exfalso. apply Hchunk. by apply list_elem_of_singleton.
    + eexists. split; [by rewrite !app_nil_r|]. rewrite !app_nil_r. by split_and!.
Qed.

(** One block from an empty buffer: a run [mid] without a
    [content_block_stop] that declares [block] last, then the
    [content_block_stop]. *)
Lemma for_await_block (mid : list event) (block : response_block) (st : assembler) :
  allocated st → pendingText st = "" →
  content_block_stop ∉ mid → last_declared mid = Some block →
  match finalize_block block (join (delta_payloads mid)) with
  | inl e => for_await (mid ++ [content_block_stop]) st = (text_payloads mid, inl e)
  | inr block' =>
      ∃ st', for_await (mid ++ [content_block_stop]) st
             = (text_payloads mid ++ stop_yields block, inr st')
        ∧ finalized st' = finalized st ++ [block']
        ∧ pendingText st' = ""
        ∧ allocated st'
  end.
Proof.
  intros Hst Hempty Hfree Hdecl.
  destruct (for_await_stop_free mid st Hfree)
    as (st1 & Hmid & Htext & Hresp & Hheap & Hpend).
  rewrite Hdecl in Hpend. destruct Hpend as (r & Hr & Hb & Hfresh).
  rewrite Hempty in Htext.
  change ("" +:+ join (delta_payloads mid)) with (join (delta_payloads mid)) in Htext.
  assert (allocated st1) as Hst1 by (eapply allocated_for_await; done).
  rewrite for_await_snoc, Hmid, (on_chunk_stop st1 r block Hr Hb), Htext.
  destruct (finalize_block block (join (delta_payloads mid))) as [e|block'].
  - by rewrite app_nil_r.
  - eexists. split; [done|]. split_and!; [|done|by apply allocated_finalize].
    destruct Hst as [_ Hrefs]. rewrite finalized_finalize_fresh.
    + unfold finalized. rewrite Hresp. f_equal. apply omap_pointwise.
      eapply Forall_impl; [done|]. simpl. intros x Hx.
      symmetry. by apply prefix_lookup_lt.
    + rewrite Hresp. eapply Forall_impl; [done|]. simpl. lia.
    + by eapply lookup_lt_Some.
Qed.

End Assembler_runs.

Section Assembler_claims.
Context `{Platform}.

(** A [content_block_stop] that no [content_block_start] precedes in its
    turn throws, whatever follows it. *)
Lemma stop_without_start (pre post : list event) :
  content_block_stop ∉ pre → last_declared pre = None →
  for_await (pre ++ content_block_stop :: post) assembler_init
  = (text_payloads pre, inl (JsError "Unexpected content_block_stop")).
Proof.
  intros Hfree Hnone.
  destruct (for_await_stop_free pre assembler_init Hfree)
    as (st & Hrun & _ & _ & _ & Hpend).
  rewrite Hnone in Hpend. destruct Hpend as [Hpend _].
  rewrite for_await_app, Hrun. cbn [for_await on_chunk]. rewrite Hpend. simpl.
  by rewrite app_nil_r.
Qed.

(** Once a [content_block_stop] has been accepted, the next one is accepted
    too: [pendingBlock] still refers to the block just pushed, and the
    buffer is empty, so nothing is parsed. *)
Lemma stop_after_stop (st st' : assembler) (ys : list string) :
  allocated st → on_chunk content_block_stop st = (ys, inr st') →
  ∃ ys' st'', on_chunk content_block_stop st' = (ys', inr st'').
Proof.
  intros Hst Hstep.
  pose proof (allocated_on_chunk _ _ _ _ Hst Hstep) as [Hp' _].
  pose proof (on_chunk_stop_resets _ _ _ Hstep Hst) as Hempty.
  assert (∃ r, pendingBlock st' = Some r) as [r Hr].
  { simpl in Hstep. destruct (pendingBlock st) as [r|] eqn:Hr; [|done]. exists r.
    destruct (heap st !! r) as [[t|id name input]|]; simplify_eq; try done.
    case_decide; simplify_eq; [done|].
    by destruct (JSON_parse (pendingText st)); simplify_eq. }
  destruct (lookup_lt_is_Some_2 (heap st') r (Hp' r Hr)) as [block Hb].
  rewrite (on_chunk_stop st' r block Hr Hb), Hempty.
  destruct block as [t|id name input]; simpl; eauto.
Qed.

(** C3, at the stream [start(text), delta("hi"), stop, stop]: the second
    [content_block_stop] arrives when the block has been finalized already,
    and it is not rejected. It finalizes the same block object again, which
    overwrites its text with the empty buffer, yields a second line feed
    and pushes the object a second time. *)
Theorem repeated_stop_is_accepted :
  assembled [content_block_start (TextBlock "");
             content_block_delta (text_delta "hi");
             content_block_stop;
             content_block_stop]
  = (["hi"; newline; newline], inr [TextBlock ""; TextBlock ""]).
Proof. reflexivity. Qed.

(** C4, as amended: a [content_block_start] sets the pending block to the
    declared block and leaves the text buffer as it is; the buffer is empty
    when the turn starts and is emptied by every accepted
    [content_block_stop]. So when [pre] is empty or ends with an accepted
    [content_block_stop], and [mid] holds no [content_block_stop] and
    declares [block] last, the block that the next [content_block_stop]
    finalizes is made of [block] and of all the deltas of [mid], those
    before the start of [block] included. *)
Theorem buffer_spans_from_previous_stop
    (pre mid : list event) (block : response_block) (ys : list string) (st : assembler) :
  pre = [] ∨ last pre = Some content_block_stop →
  content_block_stop ∉ mid →
  last_declared mid = Some block →
  for_await pre assembler_init = (ys, inr st) →
  (∀ b st0, ∃ st1,
      on_chunk (content_block_start b) st0 = ([], inr st1)
      ∧ pendingText st1 = pendingText st0
      ∧ ∃ r, pendingBlock st1 = Some r ∧ heap st1 !! r = Some b)
  ∧ pendingText assembler_init = ""
  ∧ (∀ st0 ys1 st1, allocated st0 →
       on_chunk content_block_stop st0 = (ys1, inr st1) → pendingText st1 = "")
  ∧ match finalize_block block (join (delta_payloads mid)) with
    | inl e =>
        for_await (pre ++ mid ++ [content_block_stop]) assembler_init
        = (ys ++ text_payloads mid, inl e)
    | inr block' =>
        ∃ st', for_await (pre ++ mid ++ [content_block_stop]) assembler_init
               = (ys ++ text_payloads mid ++ stop_yields block, inr st')
          ∧ finalized st' = finalized st ++ [block']
          ∧ pendingText st' = ""
    end.
Proof.
  intros Hpre Hfree Hdecl Hrun. split_and!.
  - intros b st0. eexists. split; [done|]. split; [done|].
    exists (length (heap st0)). split; [done|]. simpl.
    rewrite lookup_app_r by lia. by rewrite Nat.sub_diag.
  - done.
  - intros st0 ys1 st1 Hst0 Hstep. by eapply on_chunk_stop_resets.
  - pose proof (allocated_for_await _ _ _ _ allocated_init Hrun) as Hst.
    assert (pendingText st = "") as Hempty.
    { destruct Hpre as [->|Hlast]; [by simplify_eq/=|].
      apply last_Some in Hlast as [pre' ->].
      rewrite for_await_snoc in Hrun.
      destruct (for_await pre' assembler_init) as [ys0 [e|st0]] eqn:Hrun0; [done|].
      destruct (on_chunk content_block_stop st0) as [ys1 [e|st1]] eqn:Hstep; [done|].
      simplify_eq. eapply on_chunk_stop_resets; [done|].
      eapply allocated_for_await; [apply allocated_init|done]. }
    pose proof (for_await_block mid block st Hst Hempty Hfree Hdecl) as Hblock.
    rewrite for_await_app, Hrun.
    destruct (finalize_block block (join (delta_payloads mid))) as [e|block'].
    + by rewrite Hblock.
    + destruct Hblock as (st' & -> & Hfin & Htext & _). by exists st'.
Qed.

End Assembler_claims.

(** ** Tool dispatch *)

Section Dispatch_facts.
Context `{Provider}.

Lemma dispatch_app (c : ClaudeClient) (l1 l2 : list response_block)
    (rs : list ToolResultBlockParam) (w : World) :
  dispatch c (l1 ++ l2) rs w =
    match dispatch c l1 rs w with
    | (inl e, w') => (inl e, w')
    | (inr rs', w') => dispatch c l2 rs' w'
    end.
Proof.
  revert rs w. induction l1 as [|block l1 IH]; intros rs w; [done|].
  simpl. by destruct (dispatch_block c block rs w) as [[e|rs'] w'].
Qed.

(** The body of the loop pushes nothing for a text block and exactly one
    result, with the identifier of the block, for a tool-use block. *)
Lemma dispatch_block_ids (c : ClaudeClient) (block : response_block)
    (rs rs' : list ToolResultBlockParam) (w w' : World) :
  dispatch_block c block rs w = (inr rs', w') →
  ∃ new, rs' = rs ++ new ∧ tool_use_id <$> new = tool_use_ids [block].
Proof.
  destruct block as [t|id name input]; simpl; intros Hstep.
  - exists []. simplify_eq. by rewrite app_nil_r.
  - destruct (toolHandlers c !! name) as [handler|]; [|done].
    destruct (handler input w) as [[[m|v]|text] w1]; simplify_eq; by eexists [_].
Qed.

Lemma dispatch_ids (c : ClaudeClient) (blocks : list response_block)
    (rs rs' : list ToolResultBlockParam) (w w' : World) :
  dispatch c blocks rs w = (inr rs', w') →
  ∃ new, rs' = rs ++ new ∧ tool_use_id <$> new = tool_use_ids blocks.
Proof.
  revert rs w. induction blocks as [|block blocks IH]; intros rs w Hrun; simpl in Hrun.
  - exists []. simplify_eq. by rewrite app_nil_r.
  - destruct (dispatch_block c block rs w) as [[e|rs1] w1] eqn:Hstep; [done|].
    apply dispatch_block_ids in Hstep as (new1 & -> & Hids1).
    apply IH in Hrun as (new2 & -> & Hids2).
    exists (new1 ++ new2). split; [by rewrite app_assoc|].
    rewrite fmap_app, Hids1, Hids2.
    change (block :: blocks) with ([block] ++ blocks).
    unfold tool_use_ids. by rewrite omap_app.
Qed.

Lemma dispatch_block_answerable (c : ClaudeClient) (block : response_block)
    (rs : list ToolResultBlockParam) (w : World) :
  answerable c block → ∃ rs' w', dispatch_block c block rs w = (inr rs', w').
Proof.
  destruct block as [t|id name input]; simpl; [by eauto|].
  intros (handler & -> & Hok). specialize (Hok w).
  destruct (handler input w) as [[[m|v]|text] w1]; simpl in Hok; [by eauto| |by eauto].
  by destruct (Hok v).
Qed.

Lemma dispatch_answerable (c : ClaudeClient) (blocks : list response_block)
    (rs : list ToolResultBlockParam) (w : World) :
  Forall (answerable c) blocks → ∃ rs' w', dispatch c blocks rs w = (inr rs', w').
Proof.
  intros Hall. revert rs w. induction Hall as [|block blocks Hb _ IH]; intros rs w.
  - by eexists _, _.
  - simpl. destruct (dispatch_block_answerable c block rs w Hb) as (rs1 & w1 & ->).
    apply IH.
Qed.


(** A tool-use block without a handler makes the loop throw, at that block
    or before it. *)
Lemma dispatch_unregistered (c : ClaudeClient) (pre post : list response_block)
    (id name : string) (input : Json) (rs : list ToolResultBlockParam) (w : World) :
  toolHandlers c !! name = None →
  ∃ e w', dispatch c (pre ++ ToolUseBlock id name input :: post) rs w = (inl e, w')
    ∧ (Forall (answerable c) pre → e = JsError ("No handler for tool " +:+ name)).
Proof.
  intros Hnone. rewrite dispatch_app.
  destruct (dispatch c pre rs w) as [[e|rs1] w1] eqn:Hpre.
  - exists e, w1. split; [done|]. intros Hall.
    destruct (dispatch_answerable c pre rs w Hall) as (rs' & w' & Hok). congruence.
  - exists (JsError ("No handler for tool " +:+ name)), w1.
    cbn [dispatch dispatch_block]. by rewrite Hnone.
Qed.

(** A handler that throws an [Error] adds an error result and lets the
    loop go on with the blocks that follow. *)
Lemma dispatch_recognized (c : ClaudeClient) (pre post : list response_block)
    (id name message : string) (input : Json) (handler : tool_handler)
    (rs : list ToolResultBlockParam) (w w1 w2 : World) :
  toolHandlers c !! name = Some handler →
  dispatch c pre [] w = (inr rs, w1) →
  handler input w1 = (inl (JsError message), w2) →
  dispatch c (pre ++ ToolUseBlock id name input :: post) [] w
  = dispatch c post (rs ++ [tool_error id message]) w2.
Proof.
  intros Hh Hpre Hcall. rewrite dispatch_app, Hpre.
  cbn [dispatch dispatch_block]. by rewrite Hh, Hcall.
Qed.

(** The results only grow. *)
Lemma dispatch_extends (c : ClaudeClient) (blocks : list response_block)
    (rs rs' : list ToolResultBlockParam) (w w' : World) :
  dispatch c blocks rs w = (inr rs', w') → rs `prefix_of` rs'.
Proof. intros Hrun. apply dispatch_ids in Hrun as (new & -> & _). by exists new. Qed.

End Dispatch_facts.

(** ** The conversation loop *)

Section Loop_facts.
Context `{Provider}.

(** The generator ends in the turn in which [turn] says so, whatever the
    bound on the number of turns. *)
Lemma stream_ends (c : ClaudeClient) (opts : gmap string Json) (s s' : stream_state)
    (r : completion) (fuel : nat) :
  turn c opts s = (Some r, s') → stream (S fuel) c opts s = (Some r, s').
Proof. intros Hturn. simpl. by rewrite Hturn. Qed.

Lemma stream_continues (c : ClaudeClient) (opts : gmap string Json) (s s' : stream_state)
    (fuel : nat) :
  turn c opts s = (None, s') → stream (S fuel) c opts s = stream fuel c opts s'.
Proof. intros Hturn. simpl. by rewrite Hturn. Qed.

(** Every turn sends exactly one request, built from the history as it is
    when the turn starts. *)
Lemma turn_requests (c : ClaudeClient) (opts : gmap string Json) (s : stream_state) :
  requests (turn c opts s).2 = requests s ++ [createStream c (messages s) opts].
Proof.
  unfold turn. destruct (messages_create _ _) as [response w1].
  destruct (for_await response assembler_init) as [ys [e|st]]; [done|].
  destruct (dispatch c (finalized st) [] w1) as [[e|rs] w2]; [done|].
  by case_decide.
Qed.

(** A turn whose stream throws: nothing is pushed on the history. *)
Lemma turn_stream_throws (c : ClaudeClient) (opts : gmap string Json) (s : stream_state)
    (response : list event) (w1 : World) (ys : list string) (e : thrown) :
  messages_create (createStream c (messages s) opts) (world s) = (response, w1) →
  for_await response assembler_init = (ys, inl e) →
  turn c opts s = (Some (Thrown e), advanced c opts s [] ys w1).
Proof.
  intros Hcreate Hrun. unfold turn, advanced. rewrite Hcreate, Hrun.
  by rewrite app_nil_r.
Qed.

(** A turn whose stream is assembled: the assistant message is pushed, and
    the outcome of dispatch decides how the turn ends. *)
Lemma turn_assembled (c : ClaudeClient) (opts : gmap string Json) (s : stream_state)
    (response : list event) (w1 : World) (ys : list string) (st : assembler) :
  messages_create (createStream c (messages s) opts) (world s) = (response, w1) →
  for_await response assembler_init = (ys, inr st) →
  turn c opts s =
    match dispatch c (finalized st) [] w1 with
    | (inl e, w2) =>
        (Some (Thrown e), advanced c opts s [assistant_message (finalized st)] ys w2)
    | (inr [], w2) =>
        (Some Returned, advanced c opts s [assistant_message (finalized st)] ys w2)
    | (inr rs, w2) =>
        (None, advanced c opts s [assistant_message (finalized st); user_message rs] ys w2)
    end.
Proof.
  intros Hcreate Hrun. unfold turn, advanced. rewrite Hcreate, Hrun.
  destruct (dispatch c (finalized st) [] w1) as [[e|[|r rs]] w2]; [done..|].
  case_decide; [done|]. by rewrite <- app_assoc.
Qed.

End Loop_facts.

(** ** Text-only turns *)

Section Text_turns.
Context `{Platform}.





End Text_turns.

(** ** Dispatch and the loop: the claims *)

Section Claims.
Context `{Provider}.

(** C1: when every tool-use block of a turn names a registered tool whose
    handler fails with recognized errors only, dispatch over the finalized
    blocks produces exactly as many results as the turn has tool-use
    blocks, and the i-th result carries the invocation identifier of the
    i-th tool-use block. *)
Theorem dispatch_one_result_per_tool_use
    (c : ClaudeClient) (blocks : list response_block) (w : World) :
  Forall (answerable c) blocks →
  ∃ rs w', dispatch c blocks [] w = (inr rs, w')
    ∧ length rs = length (tool_use_ids blocks)
    ∧ tool_use_id <$> rs = tool_use_ids blocks.
Proof.
  intros Hall. destruct (dispatch_answerable c blocks [] w Hall) as (rs & w' & Hrun).
  exists rs, w'. split; [done|].
  apply dispatch_ids in Hrun as (new & -> & Hids). simpl.
  split; [|done]. by rewrite <- Hids, length_fmap.
Qed.

(** C2: after the dispatch of a turn, with no result the generator returns
    in that turn, so that the request of the turn is the last one sent;
    with one result or more the history has gained a message of role
    assistant whose content is every block of the turn, in order, and then
    a message of role user whose content is every result of dispatch, in
    order, and the loop goes round again, sending the grown history. With
    no result the history has gained the assistant message alone. *)
Theorem deciding_after_dispatch
    (c : ClaudeClient) (opts : gmap string Json) (s : stream_state)
    (response : list event) (w1 w2 : World) (ys : list string) (st : assembler)
    (rs : list ToolResultBlockParam) :
  messages_create (createStream c (messages s) opts) (world s) = (response, w1) →
  for_await response assembler_init = (ys, inr st) →
  dispatch c (finalized st) [] w1 = (inr rs, w2) →
  (rs = [] →
     ∀ fuel, ∃ s',
       stream (S fuel) c opts s = (Some Returned, s')
       ∧ requests s' = requests s ++ [createStream c (messages s) opts]
       ∧ messages s'
         = messages s
           ++ [{| msg_role := assistant;
                 msg_content :=
                   ContentBlocks
                     ((λ b, match b with
                            | TextBlock t => Text t
                            | ToolUseBlock i n v => ToolUse i n v
                            end) <$> finalized st) |}])
  ∧ (rs ≠ [] →
     ∃ s',
       turn c opts s = (None, s')
       ∧ messages s'
         = messages s
           ++ [{| msg_role := assistant;
                 msg_content :=
                   ContentBlocks
                     ((λ b, match b with
                            | TextBlock t => Text t
                            | ToolUseBlock i n v => ToolUse i n v
                            end) <$> finalized st) |};
               {| msg_role := user; msg_content := ContentBlocks (ToolResult <$> rs) |}]
       ∧ (∀ fuel, stream (S fuel) c opts s = stream fuel c opts s')
       ∧ requests (turn c opts s').2
         = requests s ++ [createStream c (messages s) opts;
                          createStream c (messages s') opts]).
Proof.
  intros Hcreate Hrun Hdispatch.
  pose proof (turn_assembled c opts s response w1 ys st Hcreate Hrun) as Hturn.
  rewrite Hdispatch in Hturn. split.
  - intros -> fuel. eexists. split; [by apply stream_ends|done].
  - intros Hne. destruct rs as [|r rs]; [done|]. eexists. split; [done|].
    split; [done|]. split; [intros fuel; by apply stream_continues|].
    rewrite turn_requests. simpl. by rewrite <- app_assoc.
Qed.


(** C6: when a [content_block_stop] finalizes a tool-use block, an empty
    buffer makes its input the empty object, without any parsing; a buffer
    that is not empty is parsed, and the value parsed becomes the input;
    and when the parser rejects the buffer, the exception leaves the
    [for await] loop and the generator, before anything is pushed on the
    history. *)
Theorem tool_input_of_buffer
    (pre : list event) (ys : list string) (st : assembler) (r : nat)
    (id name : string) (declared : Json) :
  for_await pre assembler_init = (ys, inr st) →
  pendingBlock st = Some r →
  heap st !! r = Some (ToolUseBlock id name declared) →
  (pendingText st = "" →
     ∃ st', for_await (pre ++ [content_block_stop]) assembler_init = (ys, inr st')
       ∧ last (finalized st') = Some (ToolUseBlock id name empty_object))
  ∧ (∀ value, pendingText st ≠ "" → JSON_parse (pendingText st) = inr value →
       ∃ st', for_await (pre ++ [content_block_stop]) assembler_init = (ys, inr st')
         ∧ last (finalized st') = Some (ToolUseBlock id name value))
  ∧ (∀ message, pendingText st ≠ "" → JSON_parse (pendingText st) = inl message →
       ∀ post,
         for_await (pre ++ content_block_stop :: post) assembler_init
         = (ys, inl (JsError message))
         ∧ ∀ c opts s w1 fuel,
             messages_create (createStream c (messages s) opts) (world s)
             = (pre ++ content_block_stop :: post, w1) →
             stream (S fuel) c opts s
             = (Some (Thrown (JsError message)), advanced c opts s [] ys w1)).
Proof.
  intros Hrun Hr Hb.
  pose proof (on_chunk_stop st r _ Hr Hb) as Hstop.
  pose proof (lookup_lt_Some _ _ _ Hb) as Hlt.
  unfold finalize_block in Hstop. split_and!.
  - intros Hempty. rewrite for_await_snoc, Hrun, Hstop.
    rewrite decide_True by done. eexists. split; [by rewrite app_nil_r|].
    by apply last_finalized_finalize.
  - intros value Hne Hparse. rewrite for_await_snoc, Hrun, Hstop.
    rewrite decide_False, Hparse by done. eexists. split; [by rewrite app_nil_r|].
    by apply last_finalized_finalize.
  - intros message Hne Hparse post.
    assert (for_await (pre ++ content_block_stop :: post) assembler_init
            = (ys, inl (JsError message))) as Hthrow.
    { rewrite for_await_app, Hrun. cbn [for_await]. rewrite Hstop.
      rewrite decide_False, Hparse by done. by rewrite app_nil_r. }
    split; [done|]. intros c opts s w1 fuel Hcreate.
    apply stream_ends. by eapply turn_stream_throws.
Qed.

(** A turn in which a handler throws an [Error], all other blocks being
    dispatched without an exception: the error result stands where the
    results of the earlier blocks end, and the loop goes round again. *)
Lemma turn_recognized
    (c : ClaudeClient) (opts : gmap string Json) (s : stream_state)
    (response : list event) (ys : list string) (st : assembler)
    (pre post : list response_block) (id name message : string) (input : Json)
    (handler : tool_handler) (rs rs' : list ToolResultBlockParam) (w0 w1 w2 w3 : World) :
  messages_create (createStream c (messages s) opts) (world s) = (response, w0) →
  for_await response assembler_init = (ys, inr st) →
  finalized st = pre ++ ToolUseBlock id name input :: post →
  toolHandlers c !! name = Some handler →
  dispatch c pre [] w0 = (inr rs, w1) →
  handler input w1 = (inl (JsError message), w2) →
  dispatch c post (rs ++ [tool_error id message]) w2 = (inr rs', w3) →
  rs' !! length rs = Some (tool_error id message)
  ∧ turn c opts s
    = (None,
       advanced c opts s [assistant_message (finalized st); user_message rs'] ys w3).
Proof.
  intros Hcreate Hrun Hblocks Hh Hpre Hcall Hpost.
  assert (rs' !! length rs = Some (tool_error id message)) as Hat.
  { eapply prefix_lookup_Some; [|by eapply dispatch_extends].
    rewrite lookup_app_r by lia. by rewrite Nat.sub_diag. }
  split; [done|].
  rewrite (turn_assembled c opts s response w0 ys st Hcreate Hrun).
  rewrite Hblocks at 1.
  rewrite (dispatch_recognized c pre post id name message input handler rs w0 w1 w2
             Hh Hpre Hcall), Hpost.
  by destruct rs'.
Qed.

(** C7: in a turn whose blocks before the invocation have been dispatched,
    a handler that throws an [Error] makes the body of the loop push the
    result whose [is_error] is true, whose content is the message of the
    error and whose [tool_use_id] is the identifier of the invocation;
    when the blocks after it are dispatched without an
    exception, that result is in the user message and the loop goes round
    again, sending the grown history. A handler that throws anything else
    makes the generator throw that value in this turn. *)
Theorem handler_failure
    (c : ClaudeClient) (opts : gmap string Json) (s : stream_state)
    (response : list event) (ys : list string) (st : assembler)
    (pre post : list response_block) (id name : string) (input : Json)
    (handler : tool_handler) (rs : list ToolResultBlockParam) (w0 w1 w2 : World) :
  messages_create (createStream c (messages s) opts) (world s) = (response, w0) →
  for_await response assembler_init = (ys, inr st) →
  finalized st = pre ++ ToolUseBlock id name input :: post →
  toolHandlers c !! name = Some handler →
  dispatch c pre [] w0 = (inr rs, w1) →
  (∀ message, handler input w1 = (inl (JsError message), w2) →
     dispatch_block c (ToolUseBlock id name input) rs w1
     = (inr (rs ++ [{| tool_use_id := id; content := message; is_error := true |}]), w2)
     ∧ ∀ rs' w3,
         dispatch c post
           (rs ++ [{| tool_use_id := id; content := message; is_error := true |}]) w2
         = (inr rs', w3) →
         ∃ s',
           turn c opts s = (None, s')
           ∧ messages s'
             = messages s
               ++ [{| msg_role := assistant;
                     msg_content :=
                       ContentBlocks
                         ((λ b, match b with
                                | TextBlock t => Text t
                                | ToolUseBlock i n v => ToolUse i n v
                                end) <$> finalized st) |};
                   {| msg_role := user; msg_content := ContentBlocks (ToolResult <$> rs') |}]
           ∧ rs' !! length rs
             = Some {| tool_use_id := id; content := message; is_error := true |}
           ∧ (∀ fuel, stream (S fuel) c opts s = stream fuel c opts s')
           ∧ requests (turn c opts s').2
             = requests s' ++ [createStream c (messages s') opts])
  ∧ (∀ v, handler input w1 = (inl (NonError v), w2) →
       ∀ fuel,
         stream (S fuel) c opts s
         = (Some (Thrown (NonError v)),
            advanced c opts s
              [{| msg_role := assistant;
                    msg_content :=
                      ContentBlocks
                        ((λ b, match b with
                               | TextBlock t => Text t
                               | ToolUseBlock i n v => ToolUse i n v
                               end) <$> finalized st) |}]
              ys w2)).
Proof.
  intros Hcreate Hrun Hblocks Hh Hpre. split.
  - intros message Hcall. split; [simpl; by rewrite Hh, Hcall|].
    intros rs' w3 Hpost.
    destruct (turn_recognized c opts s response ys st pre post id name message input
                handler rs rs' w0 w1 w2 w3) as [Hat Hturn]; try done.
    eexists. split; [done|]. split; [done|]. split; [done|].
    split; [intros fuel; by apply stream_continues|]. apply turn_requests.
  - intros v Hcall fuel. apply stream_ends.
    rewrite (turn_assembled c opts s response w0 ys st Hcreate Hrun).
    rewrite Hblocks at 1. rewrite dispatch_app, Hpre.
    cbn [dispatch dispatch_block]. by rewrite Hh, Hcall.
Qed.

(** C8: a turn with a tool-use block whose tool has no handler makes the
    generator throw in that turn, after the request of the turn and before
    any other; when the blocks before it can be answered, what is thrown
    is the error that names the tool. *)
Theorem unregistered_tool_aborts
    (c : ClaudeClient) (opts : gmap string Json) (s : stream_state)
    (response : list event) (ys : list string) (st : assembler)
    (pre post : list response_block) (id name : string) (input : Json) (w1 : World) :
  messages_create (createStream c (messages s) opts) (world s) = (response, w1) →
  for_await response assembler_init = (ys, inr st) →
  finalized st = pre ++ ToolUseBlock id name input :: post →
  toolHandlers c !! name = None →
  ∃ e s',
    (∀ fuel, stream (S fuel) c opts s = (Some (Thrown e), s'))
    ∧ requests s' = requests s ++ [createStream c (messages s) opts]
    ∧ (Forall (answerable c) pre → e = JsError ("No handler for tool " +:+ name)).
Proof.
  intros Hcreate Hrun Hblocks Hnone.
  destruct (dispatch_unregistered c pre post id name input [] w1 Hnone)
    as (e & w2 & Hdispatch & He).
  exists e. eexists. split; [|split; [|done]].
  - intros fuel. apply stream_ends.
    rewrite (turn_assembled c opts s response w1 ys st Hcreate Hrun).
    rewrite Hblocks at 1. by rewrite Hdispatch.
  - done.
Qed.

(** C9, as amended: registering two tools with the same name leaves one
    handler under that name, the later one, as if the earlier registration
    had not been made; the list of tool descriptions, which is sent to the
    provider with every request, is appended to by each registration. *)
Theorem duplicate_name_overwrites_handler
    (c : ClaudeClient) (t1 t2 : Tool) (h1 h2 : tool_handler) :
  tool_name t1 = tool_name t2 →
  toolHandlers (addTool (addTool c t1 h1) t2 h2) !! tool_name t1 = Some h2
  ∧ toolHandlers (addTool (addTool c t1 h1) t2 h2) = toolHandlers (addTool c t2 h2)
  ∧ tools (addTool (addTool c t1 h1) t2 h2) = tools c ++ [t1; t2].
Proof.
  intros Hname. simpl. rewrite Hname. split_and!.
  - apply lookup_insert_eq.
  - apply insert_insert_eq.
  - by rewrite <- app_assoc.
Qed.

(** C10: a tool registered through [addZodTool] has for handler the wrapper
    around the handler given. On an input that the schema accepts the
    wrapper is the handler applied to the parsed value; on an input that
    the schema rejects the wrapper throws the validation error whatever the
    handler is, so the handler is not run, and dispatch turns the error
    into the result whose [is_error] is true, whose content is the message
    of the error and whose [tool_use_id] is the identifier of the
    invocation; when the other blocks of the turn
    are dispatched without an exception, the loop goes round again. *)
Theorem zod_tool_validates_input {T : Type}
    (c c' : ClaudeClient) (name : string) (schema : ZodSchema T)
    (handler : T → World → (thrown + string) * World) :
  addZodTool c name schema handler = inr c' →
  toolHandlers c' !! name = Some (zod_wrapper schema handler)
  ∧ (∀ input w,
       match zod_parse schema input with
       | inr parsed => zod_wrapper schema handler input w = handler parsed w
       | inl message =>
           ∀ handler', zod_wrapper schema handler' input w = (inl (JsError message), w)
       end)
  ∧ (∀ id input message rs w, zod_parse schema input = inl message →
       dispatch_block c' (ToolUseBlock id name input) rs w
       = (inr (rs ++ [{| tool_use_id := id; content := message; is_error := true |}]), w))
  ∧ (∀ opts s response ys st pre post id input message rs rs' w0 w1 w3,
       messages_create (createStream c' (messages s) opts) (world s) = (response, w0) →
       for_await response assembler_init = (ys, inr st) →
       finalized st = pre ++ ToolUseBlock id name input :: post →
       dispatch c' pre [] w0 = (inr rs, w1) →
       zod_parse schema input = inl message →
       dispatch c' post
         (rs ++ [{| tool_use_id := id; content := message; is_error := true |}]) w1
       = (inr rs', w3) →
       rs' !! length rs = Some {| tool_use_id := id; content := message; is_error := true |}
       ∧ ∀ fuel,
           stream (S fuel) c' opts s
           = stream fuel c' opts
               (advanced c' opts s
                  [{| msg_role := assistant;
                      msg_content :=
                        ContentBlocks
                          ((λ b, match b with
                                 | TextBlock t => Text t
                                 | ToolUseBlock i n v => ToolUse i n v
                                 end) <$> finalized st) |};
                   {| msg_role := user; msg_content := ContentBlocks (ToolResult <$> rs') |}]
                  ys w3)).
Proof.
  unfold addZodTool. intros Hadd.
  destruct (zodToInputSchema schema) as [e|input_schema]; [done|].
  injection Hadd as Hc'.
  assert (toolHandlers c' !! name = Some (zod_wrapper schema handler)) as Hh.
  { rewrite <- Hc'. apply lookup_insert_eq. }
  clear Hc'. split_and!.
  - done.
  - intros input w. unfold zod_wrapper.
    by destruct (zod_parse schema input).
  - intros id input message rs w Hparse. cbn [dispatch_block]. rewrite Hh.
    unfold zod_wrapper. by rewrite Hparse.
  - intros opts s response ys st pre post id input message rs rs' w0 w1 w3
      Hcreate Hrun Hblocks Hpre Hparse Hpost.
    destruct (turn_recognized c' opts s response ys st pre post id name message input
                 (zod_wrapper schema handler) rs rs' w0 w1 w1 w3) as [Hat Hturn];
      try done.
    { unfold zod_wrapper. by rewrite Hparse. }
    split; [done|]. intros fuel. by apply stream_continues.
Qed.

End Claims.

(** ** The model on concrete conversations *)

Section Scenarios.
Import Sample.

(** A text block ["hello"]: the increments are the text and a line feed,
    the generator returns, and the history holds two messages. *)
Example hello_scenario :
  stream 3 client ∅ (conversation [text_events ["hello"]])
  = (Some Returned,
     {| messages := hi ++ [assistant_message [TextBlock "hello"]];
        yielded := ["hello"; newline];
        requests := [createStream client hi ∅];
        world := scripted [] |}).
Proof. vm_compute. reflexivity. Qed.

(** The dice tool answers ["4"]: the history gains the assistant message
    with the tool-use block and the user message with the result, and a
    second turn is requested. *)
Example roll_dice_scenario :
  stream 3 client ∅ (conversation [tool_events "tu_1" "roll_dice" sides_text;
                                   text_events ["You rolled 4"]])
  = (Some Returned,
     {| messages := hi ++ [assistant_message [dice_block];
                           user_message [tool_result "tu_1" "4"];
                           assistant_message [TextBlock "You rolled 4"]];
        yielded := ["You rolled 4"; newline];
        requests :=
          [createStream client hi ∅;
           createStream client
             (hi ++ [assistant_message [dice_block];
                     user_message [tool_result "tu_1" "4"]]) ∅];
        world := logged "roll_dice" (scripted []) |}).
Proof. vm_compute. reflexivity. Qed.

(** A tool without a handler: the generator throws in the first turn, and
    the second turn of the provider is never asked for. *)
Example unknown_tool_scenario :
  stream 3 client ∅ (conversation [tool_events "tu_3" "unknown_tool" "";
                                   text_events ["never"]])
  = (Some (Thrown (JsError "No handler for tool unknown_tool")),
     {| messages := hi ++ [assistant_message [unknown_block]];
        yielded := [];
        requests := [createStream client hi ∅];
        world := scripted [text_events ["never"]] |}).
Proof. vm_compute. reflexivity. Qed.

(** A handler throws [new Error("division by zero")]: the result carries
    the message and the error flag, and the loop goes on. *)
Example division_by_zero_scenario :
  stream 1 client ∅ (conversation [tool_events "tu_2" "divide" "";
                                   text_events ["sorry"]])
  = (None,
     {| messages := hi ++ [assistant_message [divide_block];
                           user_message [tool_error "tu_2" "division by zero"]];
        yielded := [];
        requests := [createStream client hi ∅];
        world := logged "divide" (scripted [text_events ["sorry"]]) |}).
Proof. vm_compute. reflexivity. Qed.

(** A text block whose [content_block_stop] comes twice: nothing is
    thrown, and the assistant message holds the block twice, its text
    overwritten by the empty buffer. *)
Example repeated_stop_scenario :
  stream 3 client ∅ (conversation [text_events ["hi"] ++ [content_block_stop]])
  = (Some Returned,
     {| messages := hi ++ [assistant_message [TextBlock ""; TextBlock ""]];
        yielded := ["hi"; newline; newline];
        requests := [createStream client hi ∅];
        world := scripted [] |}).
Proof. vm_compute. reflexivity. Qed.

(** A [content_block_stop] before any [content_block_start]. *)
Example early_stop_scenario :
  stream 3 client ∅ (conversation [[other_event; content_block_stop]])
  = (Some (Thrown (JsError "Unexpected content_block_stop")),
     {| messages := hi;
        yielded := [];
        requests := [createStream client hi ∅];
        world := scripted [] |}).
Proof. vm_compute. reflexivity. Qed.

(** Dispatch over a text block, a dice roll and a division that fails. *)
Lemma dispatch_one_result_per_tool_use_witness :
  ∃ rs w',
    dispatch client [TextBlock "rolling"; dice_block; divide_block] [] (scripted [])
    = (inr rs, w')
    ∧ length rs = length (tool_use_ids [TextBlock "rolling"; dice_block; divide_block])
    ∧ tool_use_id <$> rs = tool_use_ids [TextBlock "rolling"; dice_block; divide_block].
Proof.
  apply dispatch_one_result_per_tool_use.
  apply List.Forall_cons; [exact I|].
  apply List.Forall_cons.
  { exists roll_dice. split; [reflexivity|]. intros w v. discriminate. }
  apply List.Forall_cons; [|apply List.Forall_nil].
  exists divide. split; [reflexivity|]. intros w v. discriminate.
Defined.

(** The dice turn: one result, so the loop goes round again. *)
Lemma deciding_after_dispatch_witness :
  let turns := [tool_events "tu_1" "roll_dice" sides_text; text_events ["You rolled 4"]] in
  ∃ s',
    turn client ∅ (conversation turns) = (None, s')
    ∧ messages s'
      = hi ++ [assistant_message [dice_block]; user_message [tool_result "tu_1" "4"]]
    ∧ (∀ fuel, stream (S fuel) client ∅ (conversation turns) = stream fuel client ∅ s')
    ∧ requests (turn client ∅ s').2
      = [] ++ [createStream client hi ∅; createStream client (messages s') ∅].
Proof.
  intros turns.
  refine (proj2 (deciding_after_dispatch client ∅ (conversation turns)
                   (tool_events "tu_1" "roll_dice" sides_text) (answered turns)
                   (logged "roll_dice" (answered turns)) [] (finished dice_block)
                   [tool_result "tu_1" "4"] eq_refl eq_refl eq_refl) _).
  discriminate.
Defined.

(** A text block, then a block whose first delta comes before its start. *)
Lemma buffer_spans_from_previous_stop_witness :
  ∃ st',
    for_await (text_events ["a"]
               ++ [content_block_delta (text_delta "x");
                   content_block_start (TextBlock "");
                   content_block_delta (text_delta "y")]
               ++ [content_block_stop]) assembler_init
    = (["a"; newline] ++ ["x"; "y"] ++ [newline], inr st')
    ∧ finalized st' = [TextBlock "a"] ++ [TextBlock "xy"]
    ∧ pendingText st' = "".
Proof.
  refine (proj2 (proj2 (proj2
    (buffer_spans_from_previous_stop (text_events ["a"])
       [content_block_delta (text_delta "x");
        content_block_start (TextBlock "");
        content_block_delta (text_delta "y")]
       (TextBlock "") ["a"; newline] (finished (TextBlock "a")) _ _ eq_refl eq_refl)))).
  - right. reflexivity.
  - intros Hin. repeat (apply elem_of_cons in Hin as [Hin|Hin]; [discriminate|]).
    by apply elem_of_nil in Hin.
Defined.


(** The dice block with its input streamed, before its stop. *)
Lemma tool_input_of_buffer_witness :
  ∃ st',
    for_await ([content_block_start (ToolUseBlock "tu_1" "roll_dice" (JObject []));
                content_block_delta (input_json_delta sides_text)]
               ++ [content_block_stop]) assembler_init
    = ([], inr st')
    ∧ last (finalized st') = Some dice_block.
Proof.
  refine (proj1 (proj2
    (tool_input_of_buffer
       [content_block_start (ToolUseBlock "tu_1" "roll_dice" (JObject []));
        content_block_delta (input_json_delta sides_text)]
       []
       {| heap := [ToolUseBlock "tu_1" "roll_dice" (JObject [])];
          pendingBlock := Some 0; responseBlocks := []; pendingText := sides_text |}
       0 "tu_1" "roll_dice" (JObject []) eq_refl eq_refl eq_refl))
    (JObject [("sides", 6%Z)]) _ eq_refl).
  discriminate.
Defined.

(** The turn of the division that fails. *)
Lemma handler_failure_witness :
  let turns := [tool_events "tu_2" "divide" ""; text_events ["sorry"]] in
  ∃ s',
    turn client ∅ (conversation turns) = (None, s')
    ∧ messages s'
      = hi ++ [assistant_message [divide_block];
               user_message [tool_error "tu_2" "division by zero"]]
    ∧ [tool_error "tu_2" "division by zero"] !! 0 = Some (tool_error "tu_2" "division by zero")
    ∧ (∀ fuel, stream (S fuel) client ∅ (conversation turns) = stream fuel client ∅ s')
    ∧ requests (turn client ∅ s').2 = requests s' ++ [createStream client (messages s') ∅].
Proof.
  intros turns.
  exact (proj2 (proj1
    (handler_failure client ∅ (conversation turns) (tool_events "tu_2" "divide" "")
       [] (finished divide_block) [] [] "tu_2" "divide" (JObject []) divide []
       (answered turns) (answered turns) (logged "divide" (answered turns))
       eq_refl eq_refl eq_refl eq_refl eq_refl)
    "division by zero" eq_refl)
    [tool_error "tu_2" "division by zero"] (logged "divide" (answered turns)) eq_refl).
Defined.

(** The turn that asks for a tool nobody registered. *)
Lemma unregistered_tool_aborts_witness :
  let turns := [tool_events "tu_3" "unknown_tool" ""; text_events ["never"]] in
  ∃ e s',
    (∀ fuel, stream (S fuel) client ∅ (conversation turns) = (Some (Thrown e), s'))
    ∧ requests s' = [] ++ [createStream client hi ∅]
    ∧ (Forall (answerable client) [] → e = JsError ("No handler for tool " +:+ "unknown_tool")).
Proof.
  intros turns.
  exact (unregistered_tool_aborts client ∅ (conversation turns)
           (tool_events "tu_3" "unknown_tool" "") [] (finished unknown_block)
           [] [] "tu_3" "unknown_tool" (JObject []) (answered turns)
           eq_refl eq_refl eq_refl eq_refl).
Defined.

(** C9, the claim as stated, at two registrations under ["roll_dice"]:
    the tool state holds two entries for the name, not one. *)
Lemma duplicate_name_described_twice :
  described "roll_dice" registered_twice = [describe "roll_dice"; describe "roll_dice"]
  ∧ length (described "roll_dice" registered_twice) ≠ 1.
Proof. split; [reflexivity|]. vm_compute. discriminate. Qed.

Lemma duplicate_name_overwrites_handler_witness :
  toolHandlers registered_twice !! "roll_dice" = Some divide
  ∧ toolHandlers registered_twice
    = toolHandlers (addTool (new_client ∅) (describe "roll_dice") divide)
  ∧ tools registered_twice = [] ++ [describe "roll_dice"; describe "roll_dice"].
Proof.
  exact (duplicate_name_overwrites_handler (new_client ∅) (describe "roll_dice")
           (describe "roll_dice") roll_dice divide eq_refl).
Defined.

(** C4, the claim as stated, at a delta that comes before the start of
    its block: the start does not empty the buffer, and the text of the
    finalized block holds the delta received before the start. *)
Lemma start_keeps_buffer :
  (∃ st, for_await [content_block_delta (text_delta "x");
                    content_block_start (TextBlock "")] assembler_init
         = (["x"], inr st)
         ∧ pendingText st = "x")
  ∧ assembled [content_block_delta (text_delta "x");
               content_block_start (TextBlock "");
               content_block_delta (text_delta "y");
               content_block_stop]
    = (["x"; "y"; newline], inr [TextBlock "xy"])
  ∧ assembled [content_block_start (TextBlock "");
               content_block_delta (text_delta "y");
               content_block_stop]
    = (["y"; newline], inr [TextBlock "y"]).
Proof. split; [by eexists|]. split; reflexivity. Qed.

(** The dice tool behind its schema, asked with an empty object. *)
Lemma zod_tool_validates_input_witness :
  toolHandlers zod_client !! "roll_dice" = Some (zod_wrapper sides_schema dice)
  ∧ (∀ input w,
       match zod_parse sides_schema input with
       | inr parsed => zod_wrapper sides_schema dice input w = dice parsed w
       | inl message =>
           ∀ handler', zod_wrapper sides_schema handler' input w
                       = (inl (JsError message), w)
       end)
  ∧ (∀ id input message rs w, zod_parse sides_schema input = inl message →
       dispatch_block zod_client (ToolUseBlock id "roll_dice" input) rs w
       = (inr (rs ++ [tool_error id message]), w)).
Proof.
  pose proof (zod_tool_validates_input (new_client ∅) zod_client "roll_dice"
                sides_schema dice eq_refl) as (Hh & Hwrap & Hblock & _).
  exact (conj Hh (conj Hwrap Hblock)).
Defined.

End Scenarios.

(** ** More on the stream assembler *)

Section Assembler_more.
Context `{Platform}.

Lemma block_events_facts (block : response_block) (deltas : list delta) :
  let mid := content_block_start block :: (content_block_delta <$> deltas) in
  block_events block deltas = mid ++ [content_block_stop]
  ∧ text_payloads mid = delta_yields deltas
  ∧ delta_payloads mid = payload <$> deltas
  ∧ last_declared mid = Some block
  ∧ content_block_stop ∉ mid.
Proof.
  cbv zeta. split; [done|].
  assert (text_payloads (content_block_delta <$> deltas) = delta_yields deltas
          ∧ delta_payloads (content_block_delta <$> deltas) = payload <$> deltas
          ∧ omap (λ e, match e with content_block_start b => Some b | _ => None end)
              (content_block_delta <$> deltas) = []
          ∧ content_block_stop ∉ content_block_delta <$> deltas)
    as (Hy & Hd & Hl & Hfree).
  { unfold text_payloads, delta_payloads, delta_yields.
    induction deltas as [|d deltas (IH1 & IH2 & IH3 & IH4)].
    - split_and!; try done. apply not_elem_of_nil.
    - rewrite !fmap_cons. cbn [omap list_omap]. rewrite IH1, IH2, IH3.
      split_and!; [by destruct d|by destruct d|done|].
      apply not_elem_of_cons. by split. }
  split_and!; try done.
  - unfold last_declared. cbn [omap list_omap]. by rewrite Hl.
  - apply not_elem_of_cons. by split.
Qed.

(** One well-formed block from an empty buffer, whatever its kind and the
    kinds of its deltas. *)
Lemma for_await_block_events (block : response_block) (deltas : list delta)
    (st : assembler) :
  allocated st → pendingText st = "" →
  match finalized_as (block, deltas) with
  | inl e => for_await (block_events block deltas) st = (delta_yields deltas, inl e)
  | inr block' =>
      ∃ st', for_await (block_events block deltas) st
             = (delta_yields deltas ++ stop_yields block, inr st')
        ∧ finalized st' = finalized st ++ [block']
        ∧ pendingText st' = ""
        ∧ allocated st'
  end.
Proof.
  intros Hst Hempty.
  destruct (block_events_facts block deltas) as (-> & Hy & Hd & Hl & Hfree).
  pose proof (for_await_block _ block st Hst Hempty Hfree Hl) as Hb.
  rewrite Hy, Hd in Hb. exact Hb.
Qed.

Lemma for_await_turn_events (blocks : list (response_block * list delta))
    (finals : list response_block) (st : assembler) :
  allocated st → pendingText st = "" →
  Forall2 (λ p block', finalized_as p = inr block') blocks finals →
  ∃ st', for_await (turn_events blocks) st = (turn_yields blocks, inr st')
    ∧ finalized st' = finalized st ++ finals
    ∧ pendingText st' = ""
    ∧ allocated st'.
Proof.
  intros Hst Hempty Hall. revert st Hst Hempty.
  induction Hall as [|[block deltas] block' blocks finals Hb _ IH]; intros st Hst Hempty.
  - exists st. by rewrite app_nil_r.
  - pose proof (for_await_block_events block deltas st Hst Hempty) as Hone.
    rewrite Hb in Hone. destruct Hone as (st1 & Hrun1 & Hfin1 & Hempty1 & Hst1).
    destruct (IH st1 Hst1 Hempty1) as (st2 & Hrun2 & Hfin2 & Hempty2 & Hst2).
    exists st2.
    change (turn_events ((block, deltas) :: blocks))
      with (block_events block deltas ++ turn_events blocks).
    change (turn_yields ((block, deltas) :: blocks))
      with ((delta_yields deltas ++ stop_yields block) ++ turn_yields blocks).
    rewrite for_await_app, Hrun1, Hrun2. split_and!; try done.
    rewrite Hfin2, Hfin1. by rewrite <- app_assoc.
Qed.

(** X1: events of the kinds the [switch] has no case for change nothing,
    wherever they come in the stream and whatever the state. *)
Theorem other_events_are_ignored (events : list event) (st : assembler) :
  for_await (significant events) st = for_await events st
  ∧ assembled (significant events) = assembled events.
Proof.
  split; [apply for_await_significant|].
  unfold assembled. by rewrite for_await_significant.
Qed.

(** X2: a turn of well-formed blocks (start, deltas, stop), with events of
    other kinds anywhere between them, is assembled into one block per
    block streamed, in order: a text block gets the concatenation of its
    deltas, a tool-use block the value parsed from the concatenation of its
    deltas (the empty object when they are empty). What is yielded is the
    text deltas and a line feed after each text block. *)
Theorem well_formed_turn_is_assembled
    (events : list event) (blocks : list (response_block * list delta))
    (finals : list response_block) :
  significant events = turn_events blocks →
  Forall2 (λ p block', finalized_as p = inr block') blocks finals →
  assembled events = (turn_yields blocks, inr finals).
Proof.
  intros Hshape Hall.
  destruct (for_await_turn_events blocks finals assembler_init allocated_init
              eq_refl Hall) as (st & Hrun & Hfin & _).
  rewrite <- Hshape, for_await_significant in Hrun.
  unfold assembled. by rewrite Hrun, Hfin.
Qed.

(** X3: in a turn of well-formed blocks, the first tool-use block whose
    accumulated text the parser rejects makes the loop throw the parser's
    error when its stop event comes; what the blocks before it and its own
    text deltas yielded has been yielded, and the events after it are not
    looked at. *)
Theorem first_rejected_input_aborts
    (events : list event) (good rest : list (response_block * list delta))
    (finals : list response_block) (block : response_block) (deltas : list delta)
    (e : thrown) :
  significant events = turn_events (good ++ (block, deltas) :: rest) →
  Forall2 (λ p block', finalized_as p = inr block') good finals →
  finalized_as (block, deltas) = inl e →
  assembled events = (turn_yields good ++ delta_yields deltas, inl e).
Proof.
  intros Hshape Hall Hbad.
  destruct (for_await_turn_events good finals assembler_init allocated_init
              eq_refl Hall) as (st & Hrun & _ & Hempty & Hst).
  pose proof (for_await_block_events block deltas st Hst Hempty) as Hone.
  rewrite Hbad in Hone.
  unfold assembled. rewrite <- for_await_significant, Hshape.
  replace (turn_events (good ++ (block, deltas) :: rest))
    with (turn_events good ++ block_events block deltas ++ turn_events rest)
    by (unfold turn_events; by rewrite fmap_app, concat_app).
  by rewrite for_await_app, Hrun, for_await_app, Hone.
Qed.

(** X4: events after the last [content_block_stop] of a turn never throw
    and never add a block: a block whose stop event does not come is left
    out of the turn, although its text deltas have been yielded. *)
Theorem unfinished_block_is_dropped
    (pre tail : list event) (ys : list string) (st : assembler) :
  for_await pre assembler_init = (ys, inr st) →
  content_block_stop ∉ tail →
  assembled (pre ++ tail) = (ys ++ text_payloads tail, inr (finalized st)).
Proof.
  intros Hrun Hfree.
  pose proof (allocated_for_await _ _ _ _ allocated_init Hrun) as [_ Hrefs].
  destruct (for_await_stop_free tail st Hfree) as (st' & Htail & _ & Hresp & Hheap & _).
  unfold assembled. rewrite for_await_app, Hrun, Htail. do 2 f_equal.
  unfold finalized. rewrite Hresp. apply omap_pointwise.
  eapply Forall_impl; [done|]. simpl. intros x Hx. symmetry. by apply prefix_lookup_lt.
Qed.

Lemma for_await_stop_count (events : list event) (st st' : assembler) (ys : list string) :
  allocated st → for_await events st = (ys, inr st') →
  length (responseBlocks st') = length (responseBlocks st) + stop_count events.
Proof.
  revert st ys. induction events as [|chunk events IH]; intros st ys Hst Hrun;
    simpl in Hrun.
  - simplify_eq. unfold stop_count. simpl. lia.
  - destruct (on_chunk chunk st) as [ys1 [e|st1]] eqn:Hstep; [done|].
    destruct (for_await events st1) as [ys2 r] eqn:Hrest. simplify_eq.
    rewrite (IH _ _ (allocated_on_chunk _ _ _ _ Hst Hstep) Hrest). unfold stop_count.
    destruct chunk as [block|[t|t]| |]; cbn [omap list_omap]; simpl in Hstep;
      simplify_eq; simpl; try lia.
    destruct Hst as [Hp _].
    destruct (pendingBlock st) as [r|] eqn:Hr; [|done].
    destruct (lookup_lt_is_Some_2 (heap st) r (Hp r eq_refl)) as [block Hb].
    rewrite Hb in Hstep. destruct block as [t|id name input]; simplify_eq.
    + simpl. rewrite length_app. simpl. lia.
    + case_decide; simplify_eq.
      * simpl. rewrite length_app. simpl. lia.
      * destruct (JSON_parse (pendingText st)); simplify_eq.
        simpl. rewrite length_app. simpl. lia.
Qed.

Lemma length_finalized (st : assembler) :
  allocated st → length (finalized st) = length (responseBlocks st).
Proof.
  intros [_ Hrefs]. unfold finalized.
  induction Hrefs as [|r refs Hr _ IH]; [done|].
  cbn [omap list_omap]. destruct (lookup_lt_is_Some_2 _ _ Hr) as [block ->].
  simpl. by rewrite IH.
Qed.

(** X5: a turn that is assembled holds exactly one block for every
    [content_block_stop] event of its stream. *)
Theorem one_block_per_stop
    (events : list event) (ys : list string) (blocks : list response_block) :
  assembled events = (ys, inr blocks) → length blocks = stop_count events.
Proof.
  unfold assembled. intros Hrun.
  destruct (for_await events assembler_init) as [ys' [e|st]] eqn:Hfor; [done|].
  simplify_eq.
  rewrite length_finalized by (eapply allocated_for_await; [apply allocated_init|done]).
  by rewrite (for_await_stop_count _ _ _ _ allocated_init Hfor).
Qed.

Lemma for_await_yields (events : list event) (st : assembler) (ys : list string)
    (r : thrown + assembler) :
  for_await events st = (ys, r) →
  Forall (λ y, y = newline ∨ y ∈ text_payloads events) ys.
Proof.
  revert st ys. induction events as [|chunk events IH]; intros st ys Hrun; simpl in Hrun.
  - simplify_eq. constructor.
  - assert (∀ ys1, Forall (λ y, y = newline ∨ y ∈ text_payloads [chunk]) ys1 →
              ∀ ys2, Forall (λ y, y = newline ∨ y ∈ text_payloads events) ys2 →
              Forall (λ y, y = newline ∨ y ∈ text_payloads (chunk :: events))
                (ys1 ++ ys2)) as Hjoin.
    { intros ys1 H1 ys2 H2. change (chunk :: events) with ([chunk] ++ events).
      unfold text_payloads in *. rewrite omap_app. apply Forall_app. split.
      - eapply Forall_impl; [exact H1|]. simpl. intros y [->|Hy]; [by left|].
        right. apply elem_of_app. by left.
      - eapply Forall_impl; [exact H2|]. simpl. intros y [->|Hy]; [by left|].
        right. apply elem_of_app. by right. }
    assert (∀ ys1 r1, on_chunk chunk st = (ys1, r1) →
              Forall (λ y, y = newline ∨ y ∈ text_payloads [chunk]) ys1) as Hstep.
    { intros ys1 r1 Hone. destruct chunk as [block|[t|t]| |]; simpl in Hone.
      - simplify_eq. constructor.
      - simplify_eq. constructor; [|constructor]. right. apply list_elem_of_singleton.
        done.
      - simplify_eq. constructor.
      - destruct (pendingBlock st) as [r0|]; [|simplify_eq; constructor].
        destruct (heap st !! r0) as [[t|id name input]|]; simplify_eq.
        + constructor; [by left|constructor].
        + case_decide; simplify_eq; [constructor|].
          destruct (JSON_parse (pendingText st)); simplify_eq; constructor.
        + constructor.
      - simplify_eq. constructor. }
    destruct (on_chunk chunk st) as [ys1 [e|st1]] eqn:Hone.
    + simplify_eq. rewrite <- (app_nil_r ys). apply Hjoin; [by eapply Hstep|constructor].
    + destruct (for_await events st1) as [ys2 r2] eqn:Hrest. simplify_eq.
      apply Hjoin; [by eapply Hstep|by eapply IH].
Qed.

(** X6: whatever the stream, every string yielded is the text of one of
    its text deltas or the line feed; the partial JSON of tool inputs is
    never yielded. *)
Theorem yields_are_text_or_newline
    (events : list event) (ys : list string) (r : thrown + list response_block) :
  assembled events = (ys, r) →
  Forall (λ y, y = newline ∨ y ∈ text_payloads events) ys.
Proof.
  unfold assembled. intros Hrun.
  destruct (for_await events assembler_init) as [ys' [e|st]] eqn:Hfor;
    simplify_eq; by eapply for_await_yields.
Qed.

End Assembler_more.

(** ** More on dispatch and the loop *)

Section Loop_more.
Context `{Provider}.

(** Dispatch throws only at a tool-use block: for a tool without a
    handler, or with the value, not an [Error], that a handler threw. *)
Lemma dispatch_throws (c : ClaudeClient) (blocks : list response_block)
    (rs : list ToolResultBlockParam) (w w' : World) (e : thrown) :
  dispatch c blocks rs w = (inl e, w') →
  tool_use_ids blocks ≠ []
  ∧ ((∃ name, name ∈ requested_names blocks ∧ toolHandlers c !! name = None
              ∧ e = JsError ("No handler for tool " +:+ name))
     ∨ ∃ v, e = NonError v).
Proof.
  revert rs w. induction blocks as [|block blocks IH]; intros rs w Hrun; [done|].
  cbn [dispatch] in Hrun.
  destruct (dispatch_block c block rs w) as [[e1|rs1] w1] eqn:Hstep.
  - simplify_eq. destruct block as [t|id name input]; [done|]. split; [done|].
    cbn [dispatch_block] in Hstep.
    destruct (toolHandlers c !! name) as [handler|] eqn:Hh.
    + destruct (handler input w) as [[[m|v]|text] w2]; simplify_eq. right. by exists v.
    + simplify_eq. left. exists name. split; [|done]. apply list_elem_of_here.
  - destruct (IH _ _ Hrun) as [Hids Hwhy].
    unfold tool_use_ids, requested_names in *. split.
    + destruct block; cbn [omap list_omap]; [done|]. discriminate.
    + destruct Hwhy as [(name & Hin & Hnone & ->)|Hv]; [|by right].
      left. exists name. split; [|done].
      destruct block; cbn [omap list_omap]; [done|]. by apply list_elem_of_further.
Qed.

(** How a pass through the body of the [while] can end, and what it has
    done to the history by then. *)
Lemma turn_shape (c : ClaudeClient) (opts : gmap string Json) (s s' : stream_state)
    (r : option completion) :
  turn c opts s = (r, s') →
  requests s' = requests s ++ [createStream c (messages s) opts]
  ∧ yielded s `prefix_of` yielded s'
  ∧ match r with
    | None =>
        ∃ blocks rs,
          messages s' = messages s ++ [assistant_message blocks; user_message rs]
          ∧ rs ≠ [] ∧ tool_use_id <$> rs = tool_use_ids blocks
    | Some Returned =>
        ∃ blocks,
          messages s' = messages s ++ [assistant_message blocks]
          ∧ tool_use_ids blocks = []
    | Some (Thrown e) =>
        messages s' = messages s
        ∨ ∃ blocks,
            messages s' = messages s ++ [assistant_message blocks]
            ∧ tool_use_ids blocks ≠ []
    end.
Proof.
  intros Hturn.
  destruct (messages_create (createStream c (messages s) opts) (world s))
    as [response w1] eqn:Hcreate.
  destruct (for_await response assembler_init) as [ys [e|st]] eqn:Hrun.
  - rewrite (turn_stream_throws c opts s response w1 ys e Hcreate Hrun) in Hturn.
    simplify_eq. simpl. split; [done|]. split; [by apply prefix_app_r|].
    left. by rewrite app_nil_r.
  - rewrite (turn_assembled c opts s response w1 ys st Hcreate Hrun) in Hturn.
    destruct (dispatch c (finalized st) [] w1) as [[e|rs] w2] eqn:Hdispatch.
    + simplify_eq. simpl. split; [done|]. split; [by apply prefix_app_r|].
      right. exists (finalized st). split; [done|].
      by destruct (dispatch_throws _ _ _ _ _ _ Hdispatch).
    + apply dispatch_ids in Hdispatch as (new & Hnew & Hids). simpl in Hnew. subst new.
      destruct rs as [|r0 rs]; simplify_eq; simpl.
      * split; [done|]. split; [by apply prefix_app_r|]. by exists (finalized st).
      * split; [done|]. split; [by apply prefix_app_r|].
        by exists (finalized st), (r0 :: rs).
Qed.

(** X7: when the generator returns, the history ends with the assistant
    message of the last turn, and that message holds no tool-use block. *)
Theorem returns_without_tool_use
    (c : ClaudeClient) (opts : gmap string Json) (fuel : nat) (s s' : stream_state) :
  stream fuel c opts s = (Some Returned, s') →
  ∃ blocks, last (messages s') = Some (assistant_message blocks)
            ∧ tool_use_ids blocks = [].
Proof.
  revert s. induction fuel as [|fuel IH]; intros s Hstream; [done|].
  cbn [stream] in Hstream.
  destruct (turn c opts s) as [[r|] s1] eqn:Hturn; [|by eapply IH].
  simplify_eq. apply turn_shape in Hturn as (_ & _ & blocks & -> & Hids).
  exists blocks. by rewrite last_snoc.
Qed.

(** X8: whenever the loop goes round, what it has pushed on the history is
    the assistant message of the turn and one user message that holds, in
    order, exactly one result for each tool-use block of that assistant
    message, and at least one. *)
Theorem round_pushes_matching_pair
    (c : ClaudeClient) (opts : gmap string Json) (s s' : stream_state) :
  turn c opts s = (None, s') →
  ∃ blocks rs,
    messages s'
    = messages s
      ++ [{| msg_role := assistant;
            msg_content :=
              ContentBlocks
                ((λ b, match b with
                       | TextBlock t => Text t
                       | ToolUseBlock i n v => ToolUse i n v
                       end) <$> blocks) |};
          {| msg_role := user; msg_content := ContentBlocks (ToolResult <$> rs) |}]
    ∧ rs ≠ []
    ∧ tool_use_id <$> rs = tool_use_ids blocks.
Proof. intros Hturn. by apply turn_shape in Hturn as (_ & _ & Hpair). Qed.

(** X9: when a turn makes the generator throw, the history is what it was
    before the turn (the stream threw), or it has gained the assistant
    message of the turn, which holds a tool-use block, and no user message
    with results (a handler or the lookup of a handler threw). *)
Theorem throw_leaves_tool_use_unanswered
    (c : ClaudeClient) (opts : gmap string Json) (s s' : stream_state) (e : thrown) :
  turn c opts s = (Some (Thrown e), s') →
  messages s' = messages s
  ∨ ∃ blocks,
      messages s'
      = messages s
        ++ [{| msg_role := assistant;
              msg_content :=
                ContentBlocks
                  ((λ b, match b with
                         | TextBlock t => Text t
                         | ToolUseBlock i n v => ToolUse i n v
                         end) <$> blocks) |}]
      ∧ tool_use_ids blocks ≠ [].
Proof. intros Hturn. by apply turn_shape in Hturn as (_ & _ & Hend). Qed.

Lemma stream_extends (c : ClaudeClient) (opts : gmap string Json) (fuel : nat)
    (s : stream_state) :
  messages s `prefix_of` messages (stream fuel c opts s).2
  ∧ yielded s `prefix_of` yielded (stream fuel c opts s).2
  ∧ requests s `prefix_of` requests (stream fuel c opts s).2.
Proof.
  revert s. induction fuel as [|fuel IH]; intros s; [done|].
  cbn [stream]. destruct (turn c opts s) as [r s1] eqn:Hturn.
  pose proof (turn_shape c opts s s1 r Hturn) as (Hreq & Hy & Hm).
  assert (messages s `prefix_of` messages s1) as Hm1.
  { destruct r as [[|e]|].
    - destruct Hm as (blocks & -> & _). by apply prefix_app_r.
    - destruct Hm as [->|(blocks & -> & _)]; [done|by apply prefix_app_r].
    - destruct Hm as (blocks & rs & -> & _). by apply prefix_app_r. }
  assert (requests s `prefix_of` requests s1) as Hr1.
  { rewrite Hreq. by apply prefix_app_r. }
  destruct r as [r|]; [done|].
  destruct (IH s1) as (IHm & IHy & IHr).
  split_and!; by etrans.
Qed.

(** X10: the generator only appends: the history the caller passed in, the
    strings yielded so far and the requests sent so far are never changed
    or taken back, however long the loop runs. *)
Theorem stream_only_appends
    (c : ClaudeClient) (opts : gmap string Json) (fuel : nat) (s : stream_state) :
  messages s `prefix_of` messages (stream fuel c opts s).2
  ∧ yielded s `prefix_of` yielded (stream fuel c opts s).2
  ∧ requests s `prefix_of` requests (stream fuel c opts s).2.
Proof. apply stream_extends. Qed.

(** X11: the messages the generator pushes alternate between assistant and
    user, starting with assistant: some rounds of an assistant message and
    a user message, then the final assistant message when the generator
    returns, nothing more while the loop is still running, and nothing or
    an assistant message when it throws. *)
Theorem pushed_roles_alternate
    (c : ClaudeClient) (opts : gmap string Json) (fuel : nat) (s : stream_state) :
  ∃ n new tail,
    messages (stream fuel c opts s).2 = messages s ++ new
    ∧ msg_role <$> new = rounds n ++ tail
    ∧ match (stream fuel c opts s).1 with
      | None => tail = [] ∧ n = fuel
      | Some Returned => tail = [assistant]
      | Some (Thrown _) => tail = [] ∨ tail = [assistant]
      end.
Proof.
  revert s. induction fuel as [|fuel IH]; intros s.
  - exists 0, [], []. by rewrite app_nil_r.
  - cbn [stream]. destruct (turn c opts s) as [r s1] eqn:Hturn.
    pose proof (turn_shape c opts s s1 r Hturn) as (_ & _ & Hm).
    destruct r as [[|e]|]; simpl.
    + destruct Hm as (blocks & -> & _). by exists 0, [assistant_message blocks], [assistant].
    + destruct Hm as [->|(blocks & -> & _)].
      * exists 0, [], []. rewrite app_nil_r. split_and!; [done..|by left].
      * exists 0, [assistant_message blocks], [assistant]. split_and!; [done..|by right].
    + destruct Hm as (blocks & rs & Hm1 & _).
      destruct (IH s1) as (n & new & tail & Hnew & Hroles & Hend).
      exists (S n), ([assistant_message blocks; user_message rs] ++ new), tail.
      split_and!.
      * by rewrite Hnew, Hm1, <- app_assoc.
      * rewrite fmap_app, Hroles. done.
      * destruct (stream fuel c opts s1).1 as [[|e]|]; try done.
        destruct Hend as [-> ->]. done.
Qed.

Lemma stream_requests (c : ClaudeClient) (opts : gmap string Json) (fuel : nat)
    (s : stream_state) :
  ∃ new,
    requests (stream fuel c opts s).2 = requests s ++ new
    ∧ (length new ≤ fuel)%nat
    ∧ Forall (λ req,
        req_tools req = tools c
        ∧ req_options req = opts ∪ options c
        ∧ messages s `prefix_of` req_messages req
        ∧ req_messages req `prefix_of` messages (stream fuel c opts s).2) new.
Proof.
  revert s. induction fuel as [|fuel IH]; intros s.
  - exists []. rewrite app_nil_r. split_and!; [done|done|constructor].
  - pose proof (stream_extends c opts (S fuel) s) as (Hfinal & _).
    cbn [stream] in *. destruct (turn c opts s) as [r s1] eqn:Hturn.
    pose proof (turn_shape c opts s s1 r Hturn) as (Hreq & _ & Hm).
    assert (Forall (λ req,
              req_tools req = tools c ∧ req_options req = opts ∪ options c
              ∧ messages s `prefix_of` req_messages req)
              [createStream c (messages s) opts]) as Hfirst.
    { constructor; [|constructor]. done. }
    destruct r as [r|].
    + exists [createStream c (messages s) opts]. simpl in *.
      split_and!; [done|lia|]. constructor; [|constructor]. done.
    + destruct (IH s1) as (new & Hnew & Hlen & Hall).
      exists (createStream c (messages s) opts :: new). split_and!.
      * by rewrite Hnew, Hreq, <- app_assoc.
      * simpl. lia.
      * constructor; [done|]. eapply Forall_impl; [exact Hall|]. simpl.
        intros req (Ht & Ho & Hp & Hq). split_and!; try done.
        etrans; [|exact Hp]. destruct Hm as (blocks & rs & -> & _).
        by apply prefix_app_r.
Qed.

(** X12: a call of the generator sends at most one request per turn, and
    every one of them carries the tools of the client, the options of the
    call merged over the options of the client, and as messages the
    history of the caller as it was then: an extension of the history
    passed in and a beginning of the history at the end. *)
Theorem requests_carry_tools_and_history
    (c : ClaudeClient) (opts : gmap string Json) (fuel : nat) (s : stream_state) :
  ∃ new,
    requests (stream fuel c opts s).2 = requests s ++ new
    ∧ (length new ≤ fuel)%nat
    ∧ Forall (λ req,
        req_tools req = tools c
        ∧ req_options req = opts ∪ options c
        ∧ messages s `prefix_of` req_messages req
        ∧ req_messages req `prefix_of` messages (stream fuel c opts s).2) new.
Proof. apply stream_requests. Qed.

End Loop_more.

(** ** The client: options and the tool registry *)

Section Client_more.
Context `{Provider} `{!Literals}.

Lemma built_handlers (c : ClaudeClient) :
  built c → ∀ name, is_Some (toolHandlers c !! name) ↔ name ∈ described_names c.
Proof.
  induction 1 as [opts|c prompt _ IH|T c c' name schema handler _ IH Hadd]; intros n.
  - unfold described_names. simpl. rewrite lookup_empty. split.
    + by intros [? ?].
    + by intros ?%elem_of_nil.
  - apply IH.
  - unfold addZodTool in Hadd.
    destruct (zodToInputSchema schema) as [e|input_schema]; [done|].
    injection Hadd as <-. unfold described_names in *. simpl.
    rewrite lookup_insert_is_Some, fmap_app, elem_of_app, IH. simpl.
    rewrite list_elem_of_singleton. split.
    + intros [->|[_ Hin]]; [by right|by left].
    + intros [Hin | ->]; [|by left].
      destruct (decide (name = n)) as [->|Hne]; [by left|by right].
Qed.

(** X13: in a client built with the constructor, [system] and
    [addZodTool], the names that have a handler are exactly the names of
    the tools described to the provider. *)
Theorem described_tools_have_handlers (c : ClaudeClient) :
  built c → ∀ name, is_Some (toolHandlers c !! name) ↔ name ∈ described_names c.
Proof. apply built_handlers. Qed.

(** X14: with such a client, a turn that asks only for tools described to
    the provider never fails for want of a handler: if dispatch throws,
    what it throws is a value, not an [Error], that a handler threw. *)
Theorem described_tools_are_dispatched
    (c : ClaudeClient) (blocks : list response_block)
    (rs : list ToolResultBlockParam) (w w' : World) (e : thrown) :
  built c →
  requested_names blocks ⊆ described_names c →
  dispatch c blocks rs w = (inl e, w') →
  ∃ v, e = NonError v.
Proof.
  intros Hc Hasked Hrun.
  destruct (dispatch_throws c blocks rs w w' e Hrun)
    as [_ [(name & Hin & Hnone & _)|Hv]]; [|done].
  apply Hasked, (built_handlers c Hc) in Hin. rewrite Hnone in Hin.
  by destruct Hin.
Qed.

(** X15: for a key that [createStream] does not set itself, the option
    sent is the one given to the call; failing that, the one given to the
    constructor; failing that, the default (for [model] and [max_tokens]). *)
Theorem option_precedence
    (opts call : gmap string Json) (history : list MessageParam) (k : string) :
  k ∉ reserved_keys →
  req_options (createStream (constructor opts) history call) !! k
  = match call !! k with
    | Some v => Some v
    | None =>
        match opts !! k with
        | Some v => Some v
        | None => default_options !! k
        end
    end.
Proof.
  intros _. simpl. rewrite !lookup_union.
  destruct (call !! k), (opts !! k), (default_options !! k); done.
Qed.

(** X16: after [system(prompt)], every request of a call of the generator
    carries the prompt under [system], unless the options of the call give
    [system] themselves, in which case it carries theirs. *)
Theorem system_prompt_is_sent
    (c : ClaudeClient) (prompt : string) (opts : gmap string Json) (fuel : nat)
    (s : stream_state) :
  ∃ new,
    requests (stream fuel (system c prompt) opts s).2 = requests s ++ new
    ∧ Forall (λ req,
        req_options req !! "system"
        = Some (default (json_string prompt) (opts !! "system"))
        ∧ req_tools req = tools c) new.
Proof.
  destruct (stream_requests (system c prompt) opts fuel s) as (new & Hnew & _ & Hall).
  exists new. split; [done|]. eapply Forall_impl; [exact Hall|]. simpl.
  intros req (Ht & -> & _). split; [|done].
  rewrite lookup_union. simpl. rewrite lookup_insert_eq.
  by destruct (opts !! "system").
Qed.

End Client_more.

(** ** [extractUrls] *)

Section ExtractUrls_facts.
Context `{Web}.

Lemma elem_of_set_add (x y : string) (result : list string) :
  y ∈ set_add x result ↔ y = x ∨ y ∈ result.
Proof.
  unfold set_add. case_decide as Hin.
  - split; [by right|]. by intros [->|?].
  - rewrite elem_of_app, list_elem_of_singleton. tauto.
Qed.

Lemma NoDup_set_add (x : string) (result : list string) :
  NoDup result → NoDup (set_add x result).
Proof.
  intros Hnd. unfold set_add. case_decide as Hin; [done|].
  apply NoDup_app. split_and!; [done| |apply NoDup_singleton].
  intros y Hy ->%list_elem_of_singleton. done.
Qed.

Lemma existsb_false {A} (f : A → bool) (l : list A) :
  existsb f l = false ↔ Forall (λ x, f x = false) l.
Proof.
  induction l as [|x l IH]; simpl.
  - split; [constructor|done].
  - rewrite orb_false_iff, IH, Forall_cons. done.
Qed.

(** The body of the loop adds what it keeps of the href, or nothing. *)
Lemma visit_kept (base : URL) (result : list string) (href : string) :
  (∃ x, kept base href x ∧ visit base result href = set_add x result)
  ∨ ((∀ x, ¬ kept base href x) ∧ visit base result href = result).
Proof.
  unfold visit, kept.
  destruct (URL_new href base) as [url|] eqn:Hurl;
    [|right; split; [by intros x (url & ? & _)|done]].
  case_decide as Hhost;
    [right; split; [intros x (url' & ? & ? & _); by simplify_eq|done]|].
  destruct (existsb _ IGNORED_PATHS) eqn:Hpaths.
  { right. split; [|done]. intros x (url' & ? & _ & Hall & _). simplify_eq.
    apply existsb_false in Hall. congruence. }
  apply existsb_false in Hpaths. cbv zeta.
  case_decide as Hbase.
  - right. split; [|done]. intros x (url' & ? & _ & _ & -> & Hne). by simplify_eq.
  - left. eexists. split; [|done]. exists url. by split_and!.
Qed.

Lemma foldl_visit (base : URL) (l : list string) (result : list string) :
  NoDup result →
  NoDup (foldl (visit base) result l)
  ∧ ∀ x, x ∈ foldl (visit base) result l
         ↔ x ∈ result ∨ ∃ href, href ∈ l ∧ kept base href x.
Proof.
  revert result. induction l as [|href l IH]; intros result Hnd; simpl.
  - split; [done|]. intros x. split; [by left|].
    intros [?|(href & ?%elem_of_nil & _)]; done.
  - destruct (visit_kept base result href) as [(y & Hy & ->)|[Hnone ->]].
    + destruct (IH (set_add y result) (NoDup_set_add y result Hnd)) as [Hnd' Hin].
      split; [done|]. intros x. rewrite Hin, elem_of_set_add. split.
      * intros [[->|?]|(h & Hh & Hk)]; [right|by left|right].
        -- exists href. split; [apply list_elem_of_here|done].
        -- exists h. split; [by apply list_elem_of_further|done].
      * intros [?|(h & Hh & Hk)]; [by left; right|].
        apply elem_of_cons in Hh as [->|Hh].
        -- left. left. destruct Hy as (u1 & Hu1 & _ & _ & -> & _).
           destruct Hk as (u2 & Hu2 & _ & _ & -> & _). congruence.
        -- right. by exists h.
    + destruct (IH result Hnd) as [Hnd' Hin].
      split; [done|]. intros x. rewrite Hin. split.
      * intros [?|(h & Hh & Hk)]; [by left|right].
        exists h. split; [by apply list_elem_of_further|done].
      * intros [?|(h & Hh & Hk)]; [by left|].
        apply elem_of_cons in Hh as [->|Hh]; [by destruct (Hnone x)|].
        right. by exists h.
Qed.

(** X17: [extractUrls] never returns the same href twice, however often
    the text links to it and whatever the fragments of the links. *)
Theorem extractUrls_NoDup (text : string) (base : URL) :
  NoDup (extractUrls text base).
Proof. apply (foldl_visit base (hrefs text) []). constructor. Qed.

(** X18: an href is returned exactly when one of the hrefs matched in the
    text resolves, against the base, to a URL whose host is not an ignored
    host, whose path matches none of the ignored patterns, and whose href
    without its fragment is the one returned and differs from the href of
    the base. An href that does not resolve is skipped. *)
Theorem extractUrls_spec (text : string) (base : URL) (x : string) :
  x ∈ extractUrls text base ↔ ∃ href, href ∈ hrefs text ∧ kept base href x.
Proof.
  destruct (foldl_visit base (hrefs text) [] (NoDup_nil_2)) as [_ Hin].
  unfold extractUrls. rewrite Hin. split; [|by right].
  intros [?%elem_of_nil|?]; done.
Qed.

End ExtractUrls_facts.

(** ** More concrete runs *)

Section Scenarios_more.
Import Sample.

(** A text block in two chunks, then the dice block. *)
Lemma well_formed_turn_is_assembled_witness :
  assembled ([other_event] ++ text_events ["You "; "rolled"]
             ++ tool_events "tu_1" "roll_dice" sides_text)
  = (["You "; "rolled"; newline], inr [TextBlock "You rolled"; dice_block]).
Proof.
  apply (@well_formed_turn_is_assembled platform _
           [(TextBlock "", [text_delta "You "; text_delta "rolled"]);
            (ToolUseBlock "tu_1" "roll_dice" (JObject [] : @Json platform), [input_json_delta sides_text])]).
  - reflexivity.
  - repeat constructor.
Defined.

(** A text block, a tool-use block with an unterminated object, and a
    text block that is never reached. *)
Lemma first_rejected_input_aborts_witness :
  assembled (text_events ["a"] ++ tool_events "tu_1" "roll_dice" "{"
             ++ text_events ["never"])
  = (["a"; newline] ++ [], inl (JsError "Unexpected end of JSON input")).
Proof.
  apply (@first_rejected_input_aborts platform _
           [(TextBlock "", [text_delta "a"])]
           [(TextBlock "", [text_delta "never"])]
           [TextBlock "a"]
           (ToolUseBlock "tu_1" "roll_dice" (JObject [] : @Json platform)) [input_json_delta "{"]).
  - reflexivity.
  - repeat constructor.
  - reflexivity.
Defined.

(** A text block, then a block that starts and never stops. *)
Lemma unfinished_block_is_dropped_witness :
  assembled (text_events ["a"]
             ++ [content_block_start (TextBlock ""); content_block_delta (text_delta "b")])
  = (["a"; newline] ++ ["b"], inr [TextBlock "a"]).
Proof.
  refine (unfinished_block_is_dropped (text_events ["a"])
            [content_block_start (TextBlock ""); content_block_delta (text_delta "b")]
            ["a"; newline] (finished (TextBlock "a")) eq_refl _).
  intros Hin. repeat (apply elem_of_cons in Hin as [Hin|Hin]; [discriminate|]).
  by apply elem_of_nil in Hin.
Defined.

Lemma one_block_per_stop_witness :
  length [TextBlock "a"; dice_block]
  = stop_count (text_events ["a"] ++ tool_events "tu_1" "roll_dice" sides_text).
Proof.
  exact (one_block_per_stop
           (text_events ["a"] ++ tool_events "tu_1" "roll_dice" sides_text)
           ["a"; newline] [TextBlock "a"; dice_block] eq_refl).
Defined.

Lemma yields_are_text_or_newline_witness :
  Forall (λ y, y = newline
               ∨ y ∈ text_payloads (tool_events "tu_1" "roll_dice" sides_text
                                    ++ text_events ["hi"]))
    ["hi"; newline].
Proof.
  exact (yields_are_text_or_newline
           (tool_events "tu_1" "roll_dice" sides_text ++ text_events ["hi"])
           ["hi"; newline] (inr [dice_block; TextBlock "hi"]) eq_refl).
Defined.

(** The dice conversation, to its end. *)
Lemma returns_without_tool_use_witness :
  let s := conversation [tool_events "tu_1" "roll_dice" sides_text;
                         text_events ["You rolled 4"]] in
  ∃ blocks, last (messages (stream 3 client ∅ s).2) = Some (assistant_message blocks)
            ∧ tool_use_ids blocks = [].
Proof.
  intros s. apply (returns_without_tool_use client ∅ 3 s). vm_compute. reflexivity.
Defined.

(** The first turn of the dice conversation. *)
Lemma round_pushes_matching_pair_witness :
  let s := conversation [tool_events "tu_1" "roll_dice" sides_text;
                         text_events ["You rolled 4"]] in
  ∃ blocks rs,
    messages (turn client ∅ s).2 = messages s ++ [assistant_message blocks; user_message rs]
    ∧ rs ≠ []
    ∧ tool_use_id <$> rs = tool_use_ids blocks.
Proof.
  intros s. apply (round_pushes_matching_pair client ∅ s). vm_compute. reflexivity.
Defined.

(** The turn that asks for a tool nobody registered. *)
Lemma throw_leaves_tool_use_unanswered_witness :
  let s := conversation [tool_events "tu_3" "unknown_tool" ""] in
  messages (turn client ∅ s).2 = messages s
  ∨ ∃ blocks,
      messages (turn client ∅ s).2 = messages s ++ [assistant_message blocks]
      ∧ tool_use_ids blocks ≠ [].
Proof.
  intros s.
  apply (throw_leaves_tool_use_unanswered client ∅ s _
           (JsError "No handler for tool unknown_tool")).
  vm_compute. reflexivity.
Defined.

End Scenarios_more.

Section Scenarios_built.
Import Built.

Lemma dice_client_built : built dice_client.
Proof.
  apply (built_addZodTool (system (constructor ∅) "Be brief") dice_client "roll_dice"
           sides_schema dice); [|reflexivity].
  apply built_system, built_constructor.
Defined.

Lemma crash_client_built : built crash_client.
Proof.
  apply (built_addZodTool (constructor ∅) crash_client "crash" sides_schema crash);
    [|reflexivity].
  apply built_constructor.
Defined.

Lemma described_tools_have_handlers_witness :
  is_Some (toolHandlers dice_client !! "roll_dice")
  ↔ "roll_dice" ∈ described_names dice_client.
Proof. exact (described_tools_have_handlers dice_client dice_client_built "roll_dice"). Defined.

(** The crash tool, asked for with a valid input. *)
Lemma described_tools_are_dispatched_witness :
  ∃ v, NonError "oops" = NonError v.
Proof.
  apply (described_tools_are_dispatched crash_client
           [ToolUseBlock "tu_1" "crash" (VObject [("sides", 6%Z)] : @Json platform)] [] [] ["crash"]
           (NonError "oops") crash_client_built).
  - intros name Hin. exact Hin.
  - reflexivity.
Defined.

Lemma option_precedence_witness :
  req_options (createStream (constructor {[ "max_tokens" := VNumber 1024 ]}) []
                 {[ "temperature" := VNumber 0 ]}) !! "model"
  = Some (VString "anthropic.claude-3-5-sonnet-latest").
Proof.
  refine (eq_trans (option_precedence {[ "max_tokens" := VNumber 1024 ]}
                      {[ "temperature" := VNumber 0 ]} [] "model" _) eq_refl).
  intros Hin. repeat (apply elem_of_cons in Hin as [Hin|Hin]; [discriminate|]).
  by apply elem_of_nil in Hin.
Defined.

End Scenarios_built.
